(** * Clustering coefficients of NetworKit ([ClusteringCoefficient.cpp])

    A shallow embedding of the five operations of [ClusteringCoefficient]:
    [exactLocal], [avgLocal], [approxAvgLocal], [exactGlobal] and
    [approxGlobal], together with the properties of them that the
    specification states.

    Conventions of the embedding.
    - [count], [index] and [node] are all [uint64_t] in the source; they are
      integers of [Z] here and every arithmetic operation of the source is
      written with its reduction modulo [2^64] ([add64], [sub64], [mul64]).
    - A [double] is an exact rational or one of the special values that a
      division by zero produces, and [dadd] and [ddiv] are the exact sum and
      quotient.  Binary64 agrees with the exact sum as long as the operands
      and the result are integers of magnitude at most [2^53]; the statements
      that depend on that carry the bound.  Where the source adds up counts
      in a [double] without such a bound (the two reductions of
      [exactGlobal]), the sum is modelled with its rounding, by [toDouble].
      The quotients are only compared with [0] and [1].
    - A [std::vector] is a list, read and written at [Z.to_nat] of the index.
    - The process-wide random generator is a stream of raw values consumed
      in call order; loops whose exit depends on the draws take fuel. *)

From Stdlib Require Import QArith Qcanon.
From stdpp Require Import base numbers list gmap sets sorting.

Local Open Scope Z_scope.
#[local] Set Warnings "-clear-no-such-hyp".

(** ** Unsigned 64-bit arithmetic *)

Definition wrap (x : Z) : Z := x mod 2 ^ 64.
Definition add64 (a b : Z) : Z := wrap (a + b).
Definition sub64 (a b : Z) : Z := wrap (a - b).
Definition mul64 (a b : Z) : Z := wrap (a * b).

(** The values a [count] can hold. *)
Definition fits (x : Z) : Prop := 0 ≤ x < 2 ^ 64.

(** ** Doubles *)

Inductive double : Type :=
  | Finite (q : Qc)
  | Inf (negative : bool)
  | NaN.

Global Instance double_eq_dec : EqDecision double.
Proof. solve_decision. Defined.

Definition of_count (n : Z) : double := Finite (Qc_of_Z n).

Definition is_neg (q : Qc) : bool := bool_decide (q < 0)%Qc.

(** The sum and the quotient, without rounding.  Binary64 computes the same
    sum when both operands and the result are integers of magnitude at most
    [2^53] ([toDouble] below is the identity there); above that bound it
    rounds, and its sum is no longer associative. *)
Definition dadd (x y : double) : double :=
  match x, y with
  | NaN, _ | _, NaN => NaN
  | Finite a, Finite b => Finite (a + b)%Qc
  | Inf s, Finite _ | Finite _, Inf s => Inf s
  | Inf s, Inf s' => if bool_decide (s = s') then Inf s else NaN
  end.

Definition ddiv (x y : double) : double :=
  match x, y with
  | NaN, _ | _, NaN => NaN
  | Finite a, Finite b =>
      if bool_decide (b = 0%Qc)
      then (if bool_decide (a = 0%Qc) then NaN else Inf (is_neg a))
      else Finite (a / b)%Qc
  | Finite _, Inf _ => Finite 0%Qc
  | Inf s, Finite b => Inf (xorb s (is_neg b))
  | Inf _, Inf _ => NaN
  end.

(** A double that is a number between 0 and 1. *)
Definition in_unit_interval (x : double) : Prop :=
  match x with
  | Finite q => (0 ≤ q)%Qc ∧ (q ≤ 1)%Qc
  | _ => False
  end.

Global Instance in_unit_interval_dec x : Decision (in_unit_interval x).
Proof. destruct x; simpl; apply _. Defined.

(** [(double) n] for a count [n]: the binary64 number nearest to [n], ties
    to the even significand.  Every integer below [2^53] is a binary64
    number; from [2^53] on the binary64 numbers are the multiples of
    [2 ^ (log2 n - 52)].  The binary64 sum of two doubles [a] and [b] that
    hold integers is [toDouble (a + b)]. *)
Definition toDouble (n : Z) : Z :=
  if bool_decide (n < 2 ^ 53) then n
  else
    let ulp := 2 ^ (Z.log2 n - 52) in
    let q := n `div` ulp in
    let r := n `mod` ulp in
    if bool_decide (2 * r < ulp) then q * ulp
    else if bool_decide (ulp < 2 * r) then (q + 1) * ulp
    else if Z.even q then q * ulp else (q + 1) * ulp.

(** ** The graph *)

(** Modelled from the spec: the [Graph] class is not among the sources.  The
    spec asks of it an upper node id bound, an existence test per id, the
    degree of a node, the enumeration of the edges incident to a node (each
    yielding the neighbour), an edge test, and the iteration over the
    existing nodes.  The model keeps, per id, an existence flag and the list
    of neighbours in enumeration order; a self-loop at [u] is one entry [u]
    in the list of [u], a parallel edge a repeated entry.  The degree of a
    node is the number of entries its enumeration yields. *)
Record Graph : Type := {
  exists_ : list bool;
  adja : list (list Z);
}.

Definition upperNodeIdBound (G : Graph) : Z := Z.of_nat (length (exists_ G)).

Definition hasNode (G : Graph) (u : Z) : bool :=
  bool_decide (0 ≤ u) && default false (exists_ G !! Z.to_nat u).

(** [forEdgesOf] and [forNeighborsOf] run over this list. *)
Definition edgesOf (G : Graph) (u : Z) : list Z :=
  if bool_decide (0 ≤ u) then default [] (adja G !! Z.to_nat u) else [].

Definition degree (G : Graph) (u : Z) : Z := Z.of_nat (length (edgesOf G u)).

Definition hasEdge (G : Graph) (u v : Z) : bool := bool_decide (v ∈ edgesOf G u).

(** [forNodes]: the existing ids, in increasing order. *)
Definition nodes (G : Graph) : list Z :=
  filter (λ u, hasNode G u = true) (seqZ 0 (upperNodeIdBound G)).

(** ** exactLocal *)

Definition uNeighbors (G : Graph) (u : Z) : gset Z :=
  foldl (λ s v, if bool_decide (v ≠ u) then {[ v ]} ∪ s else s) ∅ (edgesOf G u).

Definition countTriangles (G : Graph) (u : Z) (nb : gset Z) : Z :=
  foldl (λ triangles v,
           foldl (λ triangles w,
                    if bool_decide (w ∈ nb) then add64 triangles 1 else triangles)
                 triangles (edgesOf G v))
        0 (edgesOf G u).

Definition localCoefficient (G : Graph) (u : Z) : double :=
  let d := degree G u in
  let nb := uNeighbors G u in
  if bool_decide (d < 2) then Finite 0%Qc
  else
    let triangles := countTriangles G u nb in
    ddiv (of_count triangles) (of_count (mul64 d (sub64 d 1))).

(** A parallel loop over the nodes whose iteration for [u] stores [f u] in
    the slot [u] of a vector, with the iterations run in the order [order]. *)
Definition writeSlots {A : Type} (f : Z → A) (init : list A) (order : list Z) : list A :=
  foldl (λ v u, <[Z.to_nat u := f u]> v) init order.

Definition exactLocal_sched (order : list Z) (G : Graph) : list double :=
  writeSlots (localCoefficient G)
             (replicate (Z.to_nat (upperNodeIdBound G)) (Finite 0%Qc)) order.

Definition exactLocal (G : Graph) : list double := exactLocal_sched (nodes G) G.

(** ** avgLocal *)

(** Read of a vector slot. *)
Definition vget {A : Type} (dflt : A) (v : list A) (i : Z) : A :=
  default dflt (v !! Z.to_nat i).

Definition avgLocal (G : Graph) : double :=
  let coefficients := exactLocal G in
  let '(sum, size) :=
    foldl (λ '(sum, size) u,
             if bool_decide (2 ≤ degree G u)
             then (dadd sum (vget (Finite 0%Qc) coefficients u), add64 size 1)
             else (sum, size))
          (Finite 0%Qc, 0) (nodes G) in
  ddiv sum (of_count size).

(** ** exactGlobal *)

(** The counter [tr] of one node. *)
Definition globalTriangles (G : Graph) (u : Z) : Z :=
  if bool_decide (1 < degree G u) then
    foldl (λ tr v,
             foldl (λ tr w, if hasEdge G u w then add64 tr 1 else tr)
                   tr (edgesOf G v))
          0 (edgesOf G u)
  else 0.

(** Modelled from the spec: [parallelSumForNodes] belongs to the absent
    [Graph]; the spec asks for an order-independent parallel sum.  Each
    thread adds up the nodes it was given, in the order it was given them,
    and the partial sums of the threads are added up. *)
Definition parallelSumForNodes (chunks : list (list Z)) (handle : Z → double) : double :=
  foldl dadd (Finite 0%Qc)
        (map (λ chunk, foldl (λ sum u, dadd sum (handle u)) (Finite 0%Qc) chunk) chunks).

(** [order] is the interleaving of the writes of the first parallel loop,
    [chunks2] and [chunks3] the distribution of the nodes over the threads
    in the two reductions. *)
Definition exactGlobal_sched (order : list Z) (chunks2 chunks3 : list (list Z))
    (G : Graph) : double :=
  let z := upperNodeIdBound G in
  let triangles :=
    writeSlots (globalTriangles G) (replicate (Z.to_nat z) 0) order in
  let denominator :=
    parallelSumForNodes chunks2
      (λ u, of_count (mul64 (degree G u) (sub64 (degree G u) 1))) in
  let cc := parallelSumForNodes chunks3 (λ u, of_count (vget 0 triangles u)) in
  ddiv cc denominator.

Definition exactGlobal (G : Graph) : double :=
  exactGlobal_sched (nodes G) [nodes G] [nodes G] G.



(** A schedule hands every existing node to exactly one iteration. *)
Definition valid_order (G : Graph) (order : list Z) : Prop := order ≡ₚ nodes G.
Definition valid_chunks (G : Graph) (chunks : list (list Z)) : Prop :=
  concat chunks ≡ₚ nodes G.

(** ** The random source and the outcome of a run *)

(** The raw values of the generator, in the order of the calls. *)
Definition Rand : Type := nat → Z.

(** How a run ends: with a value (and the number of draws made so far), by
    using up its fuel while still looping, or by reaching an operation
    without defined behaviour (a container read outside its range, a draw
    from an empty collection). *)
Inductive result (A : Type) : Type :=
  | Done (a : A) (next : nat)
  | OutOfFuel
  | Undefined.
Arguments Done {A} a next.
Arguments OutOfFuel {A}.
Arguments Undefined {A}.

Global Instance result_eq_dec {A : Type} `{EqDecision A} : EqDecision (result A).
Proof. solve_decision. Defined.

Definition M (A : Type) : Type := nat → result A.

Definition ret {A : Type} (a : A) : M A := λ i, Done a i.

Definition bind {A B : Type} (m : M A) (k : A → M B) : M B :=
  λ i, match m i with
       | Done a j => k a j
       | OutOfFuel => OutOfFuel
       | Undefined => Undefined
       end.

Notation "'let*' x ':=' m 'in' k" := (bind m (λ x, k))
  (at level 10, x name, m at level 100, k at level 200).

Definition diverge {A : Type} : M A := λ _, OutOfFuel.
Definition undefined {A : Type} : M A := λ _, Undefined.

(** Modelled from the spec: [Aux::Random::integer(upper)] is not among the
    sources; it draws an integer from the range [0, upper], both ends
    included, so that [integer(psum - 1)] draws from [0, psum). *)
Definition integer (rnd : Rand) (upper : Z) : M Z :=
  λ i, Done (rnd i mod (upper + 1)) (S i).

(** Modelled from the spec: [Graph::randomNode] returns one of the existing
    nodes. *)
Definition randomNode (rnd : Rand) (G : Graph) : M Z :=
  λ i, match nodes G !! Z.to_nat (rnd i mod Z.of_nat (length (nodes G))) with
       | Some v => Done v (S i)
       | None => Undefined
       end.

(** Modelled from the spec: [Graph::randomNeighbor] returns one of the
    entries of the enumeration of [v]. *)
Definition randomNeighbor (rnd : Rand) (G : Graph) (v : Z) : M Z :=
  λ i, match edgesOf G v !! Z.to_nat (rnd i mod degree G v) with
       | Some w => Done w (S i)
       | None => Undefined
       end.

(** ** The trial loop shared by the two estimators *)

(** [while (u == w) w = G.randomNeighbor(v);] *)
Fixpoint redraw (fuel : nat) (rnd : Rand) (G : Graph) (v u w : Z) : M Z :=
  if bool_decide (u = w) then
    match fuel with
    | O => diverge
    | S fuel => let* w' := randomNeighbor rnd G v in redraw fuel rnd G v u w'
    end
  else ret w.

(** From the two draws of a neighbour to the update of [triangles]. *)
Definition closedPair (fuel : nat) (rnd : Rand) (G : Graph) (v : Z)
    (triangles : double) : M double :=
  let* u := randomNeighbor rnd G v in
  let* w := randomNeighbor rnd G v in
  let* w := redraw fuel rnd G v u w in
  ret (if hasEdge G u w then dadd triangles (Finite 1%Qc) else triangles).

(** [for (count k = 0; k < trials; ++k) body]: the body returns the value
    it leaves in [k] and the new [triangles]. *)
Fixpoint forTrials (fuel : nat) (body : nat → Z → double → M (Z * double))
    (trials k : Z) (triangles : double) : M double :=
  if bool_decide (k < trials) then
    match fuel with
    | O => diverge
    | S fuel =>
        let* kt := body fuel k triangles in
        forTrials fuel body trials (add64 kt.1 1) kt.2
    end
  else ret triangles.

(** ** approxAvgLocal *)

(** One trial. *)
Definition approxAvgLocal_body (rnd : Rand) (G : Graph) (fuel : nat) (k : Z)
    (triangles : double) : M (Z * double) :=
  let* v := randomNode rnd G in
  if bool_decide (degree G v < 2) then ret (sub64 k 1, triangles)
  else let* triangles := closedPair fuel rnd G v triangles in ret (k, triangles).

Definition approxAvgLocal (fuel : nat) (rnd : Rand) (G : Graph) (trials : Z)
    : result double :=
  (let* triangles := forTrials fuel (approxAvgLocal_body rnd G) trials 0 (Finite 0%Qc) in
   ret (ddiv triangles (of_count trials))) 0%nat.

(** ** approxGlobal *)

(** The body of the loop that fills [weight]:
    [psum += G.degree(v) * (G.degree(v) - 1); weight[v] = psum;] *)
Definition prefixStep (G : Graph) : list Z * Z → Z → list Z * Z :=
  λ '(weight, psum) v,
    let psum := add64 psum (mul64 (degree G v) (sub64 (degree G v) 1)) in
    (<[Z.to_nat v := psum]> weight, psum).

(** The vector [weight] and the final [psum]. *)
Definition prefixWeights (G : Graph) : list Z * Z :=
  foldl (prefixStep G) (replicate (Z.to_nat (upperNodeIdBound G)) 0, 0) (nodes G).

(** The binary search; [None] when [fuel] iterations were not enough. *)
Fixpoint binarySearch (fuel : nat) (weight : list Z) (r low high : Z) : option Z :=
  if bool_decide (low < high) then
    match fuel with
    | O => None
    | S fuel =>
        let middle := add64 low high `div` 2 in
        if bool_decide (vget 0 weight middle < r)
        then binarySearch fuel weight r (add64 middle 1) high
        else if bool_decide (vget 0 weight middle > r)
        then binarySearch fuel weight r low middle
        else binarySearch fuel weight r middle middle
    end
  else Some low.

(** One trial.  The search returns an index in [0, z]; [G.degree(v)] at
    [v = z], which is no node id, reads past the end of the graph's arrays. *)
Definition approxGlobal_body (rnd : Rand) (G : Graph) (weight : list Z) (psum : Z)
    (fuel : nat) (k : Z) (triangles : double) : M (Z * double) :=
  let* r := integer rnd (sub64 psum 1) in
  let z := upperNodeIdBound G in
  match binarySearch (Z.to_nat z) weight r 0 z with
  | None => diverge
  | Some v =>
      if bool_decide (z ≤ v) then undefined
      else if bool_decide (degree G v < 2) then ret (sub64 k 1, triangles)
      else let* triangles := closedPair fuel rnd G v triangles in ret (k, triangles)
  end.

Definition approxGlobal (fuel : nat) (rnd : Rand) (G : Graph) (trials : Z)
    : result double :=
  let '(weight, psum) := prefixWeights G in
  (let* triangles := forTrials fuel (approxGlobal_body rnd G weight psum) trials 0 (Finite 0%Qc) in
   ret (ddiv triangles (of_count trials))) 0%nat.

(** ** Notions the statements use *)

(** No parallel edge and no self-loop. *)
Definition simple (G : Graph) : Prop :=
  ∀ u, NoDup (edgesOf G u) ∧ u ∉ edgesOf G u.

(** Every edge is listed at both of its ends. *)
Definition undirected (G : Graph) : Prop :=
  ∀ u v, v ∈ edgesOf G u → u ∈ edgesOf G v.

(** Every degree is below [2^32], so that [d * (d - 1)] does not wrap. *)
Definition degrees32 (G : Graph) : Prop := ∀ u, degree G u < 2 ^ 32.

Definition degrees32b (G : Graph) : bool :=
  forallb (λ l, bool_decide (Z.of_nat (length l) < 2 ^ 32)) (adja G).

Definition simpleb (G : Graph) : bool :=
  forallb (λ il, bool_decide (NoDup il.2) && bool_decide (Z.of_nat il.1 ∉ il.2))
          (imap pair (adja G)).

Definition undirectedb (G : Graph) : bool :=
  forallb (λ il, forallb (λ v, hasEdge G v (Z.of_nat il.1)) il.2)
          (imap pair (adja G)).

Definition Zsum {A : Type} (f : A → Z) (l : list A) : Z :=
  foldr (λ x s, f x + s) 0 l.

(** The number of unordered pairs of entries of [l] that are joined by an
    edge.  For [l] the neighbours of [u] in a simple graph this is the number
    of triangles through [u]. *)
Fixpoint adjacentPairs (G : Graph) (l : list Z) : Z :=
  match l with
  | [] => 0
  | v :: l => Z.of_nat (length (filter (λ w, w ∈ edgesOf G v) l)) + adjacentPairs G l
  end.

Definition trianglesAt (G : Graph) (u : Z) : Z := adjacentPairs G (edgesOf G u).

(** The neighbours of [u] are pairwise adjacent. *)
Definition cliqueAt (G : Graph) (u : Z) : Prop :=
  ∀ v w, v ∈ edgesOf G u → w ∈ edgesOf G u → v ≠ w → w ∈ edgesOf G v.

(** No neighbour of [u] is adjacent to a neighbour of [u] other than [u]. *)
Definition independentAt (G : Graph) (u : Z) : Prop :=
  ∀ v w, v ∈ edgesOf G u → w ∈ edgesOf G v → w ∈ edgesOf G u → w = u.

(** The weight of a node in the sampler, as the source computes it. *)
Definition tripleMass (G : Graph) (v : Z) : Z :=
  mul64 (degree G v) (sub64 (degree G v) 1).

(** The prefix sum as the spec words it: the sum of the weights of the
    existing nodes with id at most [i]. *)
Definition cumulativeMass (G : Graph) (i : Z) : Z :=
  Zsum (tripleMass G) (filter (λ v, v ≤ i) (nodes G)).

(** The arithmetic mean of a list of doubles. *)
Definition mean (l : list double) : double :=
  ddiv (foldl dadd (Finite 0%Qc) l) (of_count (Z.of_nat (length l))).

(** One step of a wrapping counter that counts the elements with [P]. *)
Definition tally {A : Type} (P : A → Prop) `{!∀ x, Decision (P x)} (t : Z) (x : A) : Z :=
  if bool_decide (P x) then add64 t 1 else t.

(** A trial that is not counted has made at least one draw, a counted trial
    at least three. *)
Definition trial_draws (body : nat → Z → double → M (Z * double)) : Prop :=
  ∀ fuel k triangles i kt j,
    body fuel k triangles i = Done kt j →
    (kt.1 = sub64 k 1 ∧ (i + 1 ≤ j)%nat) ∨ (kt.1 = k ∧ (i + 3 ≤ j)%nat).

(** The node that the iteration of the trial loop starting with draw number
    [i] decides on: in [approxAvgLocal] the node drawn, in [approxGlobal]
    the node on which the search for the value drawn ends. *)
Definition pickedNode_avgLocal (rnd : Rand) (G : Graph) (i : nat) : option Z :=
  match randomNode rnd G i with
  | Done v _ => Some v
  | _ => None
  end.

Definition pickedNode_global (rnd : Rand) (G : Graph) (i : nat) : option Z :=
  let z := upperNodeIdBound G in
  match integer rnd (sub64 (prefixWeights G).2 1) i with
  | Done r _ =>
      match binarySearch (Z.to_nat z) (prefixWeights G).1 r 0 z with
      | Some v => if bool_decide (z ≤ v) then None else Some v
      | None => None
      end
  | _ => None
  end.

(** The iteration starting with draw number [i] is a counted trial: the
    node it decides on has degree 2 or more. *)
Definition countedAt (G : Graph) (picked : nat → option Z) (i : nat) : bool :=
  match picked i with
  | Some v => bool_decide (2 ≤ degree G v)
  | None => false
  end.

(** The trial loop unrolled: the draw numbers with which the iterations of
    a run start, in order. *)
Fixpoint iterations (fuel : nat) (body : nat → Z → double → M (Z * double))
    (trials k : Z) (triangles : double) (i : nat) : list nat :=
  if bool_decide (k < trials) then
    match fuel with
    | O => []
    | S fuel =>
        i :: match body fuel k triangles i with
             | Done kt j => iterations fuel body trials (add64 kt.1 1) kt.2 j
             | _ => []
             end
    end
  else [].

(** What one iteration that ends does, by the degree of the node [v] it
    decides on.  Below 2 the trial is discarded: one draw was made, [k - 1]
    is left in [k], which the increment of the loop turns back into [k], and
    [triangles] is as it was.  From 2 on the trial is counted: [k] is kept,
    at least three draws were made, and [triangles] went up by one exactly
    when the two distinct neighbours drawn are adjacent. *)
Definition trial_exact (G : Graph) (picked : nat → option Z)
    (body : nat → Z → double → M (Z * double)) : Prop :=
  ∀ fuel k triangles i kt j,
    body fuel k triangles i = Done kt j →
    ∃ v, picked i = Some v
         ∧ ((degree G v < 2 ∧ kt = (sub64 k 1, triangles) ∧ j = S i
             ∧ (fits k → add64 kt.1 1 = k))
            ∨ (2 ≤ degree G v ∧ kt.1 = k ∧ (i + 3 ≤ j)%nat
               ∧ ∃ u w, u ∈ edgesOf G v ∧ w ∈ edgesOf G v ∧ u ≠ w
                        ∧ kt.2 = if hasEdge G u w
                                 then dadd triangles (Finite 1%Qc)
                                 else triangles)).

(** Draws with which each of the first [trials] rounds is a counted trial
    without a repeated draw: round [n] uses the draws [3n], [3n + 1] and
    [3n + 2], decides on a node of degree 2 or more and draws two different
    neighbours of it. *)
Definition favourable (G : Graph) (rnd : Rand) (picked : nat → option Z)
    (trials : Z) : Prop :=
  ∀ n : nat, Z.of_nat n < trials →
    ∃ v u w, picked (3 * n)%nat = Some v
             ∧ 2 ≤ degree G v
             ∧ randomNeighbor rnd G v (S (3 * n)) = Done u (S (S (3 * n)))
             ∧ randomNeighbor rnd G v (S (S (3 * n))) = Done w (S (S (S (3 * n))))
             ∧ u ≠ w.

(** Any two distinct neighbours of any node are adjacent. *)
Definition allCliques (G : Graph) : Prop := ∀ v, cliqueAt G v.

(** No two distinct neighbours of any node are adjacent. *)
Definition triangleFree (G : Graph) : Prop :=
  ∀ v u w, u ∈ edgesOf G v → w ∈ edgesOf G v → u ≠ w → w ∉ edgesOf G u.

Definition allCliquesb (G : Graph) : bool :=
  forallb (λ l, forallb (λ u, forallb (λ w, bool_decide (u = w) || hasEdge G u w) l) l)
          (adja G).

Definition triangleFreeb (G : Graph) : bool :=
  forallb (λ l, forallb (λ u, forallb (λ w, bool_decide (u = w) || negb (hasEdge G u w)) l) l)
          (adja G).

(** ** Example graphs and draws *)

(** The draws 0, 0, 0, 1, 1, ...: at node 0 of the path, three times the
    neighbour 1, then the neighbour 2. *)
Definition threeThenOther : Rand := λ i, if bool_decide (i < 3)%nat then 0 else 1.

(** The draws 0, 1, 2, ... *)
Definition countingDraws : Rand := λ i, Z.of_nat i.

(** The draws 1, 2, 3, ... *)
Definition shiftedDraws : Rand := λ i, Z.of_nat i + 1.

Definition mkGraph (adj : list (list Z)) : Graph :=
  {| exists_ := replicate (length adj) true; adja := adj |}.

(** Three nodes, three edges. *)
Definition triangleGraph : Graph := mkGraph [[1; 2]; [0; 2]; [0; 1]].

(** The path 1 - 0 - 2. *)
Definition pathGraph : Graph := mkGraph [[1; 2]; [0]; [0]].

(** One edge 0 - 1. *)
Definition edgeGraph : Graph := mkGraph [[1]; [0]].

(** The triangle 0, 1, 2 with a self-loop at 1 and at 2. *)
Definition loopyGraph : Graph := mkGraph [[1; 2]; [0; 2; 1]; [0; 1; 2]].

(** The triangle 0, 1, 2 with a self-loop at 0. *)
Definition selfLoopGraph : Graph := mkGraph [[0; 1; 2]; [0; 2]; [0; 1]].

(** Nodes 1 and 2 are joined by three parallel edges and both adjacent to 0. *)
Definition multiGraph : Graph := mkGraph [[1; 2]; [0; 2; 2; 2]; [0; 1; 1; 1]].

(** The triangle 0, 2, 3; the id 1 was deleted. *)
Definition holeGraph : Graph :=
  {| exists_ := [true; false; true; true];
     adja := [[2; 3]; []; [0; 3]; [0; 2]] |}.



(** * Properties *)

(** Closes a decidable goal on concrete data by evaluation. *)
Ltac by_eval := apply (bool_decide_unpack _); vm_compute; exact I.

(** ** Evaluation on the example graphs *)

Example exactLocal_triangle :
  exactLocal triangleGraph = [Finite 1%Qc; Finite 1%Qc; Finite 1%Qc].
Proof. by_eval. Qed.

Example avgLocal_triangle : avgLocal triangleGraph = Finite 1%Qc.
Proof. by_eval. Qed.

Example exactGlobal_triangle : exactGlobal triangleGraph = Finite 1%Qc.
Proof. by_eval. Qed.

Example exactGlobal_path : exactGlobal pathGraph = Finite 0%Qc.
Proof. by_eval. Qed.

Example prefixWeights_triangle : prefixWeights triangleGraph = ([2; 4; 6], 6).
Proof. reflexivity. Qed.

Example prefixWeights_hole : prefixWeights holeGraph = ([2; 0; 4; 6], 6).
Proof. reflexivity. Qed.

(** Above [2^53] odd integers are rounded, a tie to the even significand. *)
Example toDouble_rounds :
  toDouble (2 ^ 53) = 2 ^ 53
  ∧ toDouble (2 ^ 53 + 1) = 2 ^ 53
  ∧ toDouble (2 ^ 53 + 3) = 2 ^ 53 + 4
  ∧ toDouble (2 ^ 54 + 2 ^ 27 + 2) = 2 ^ 54 + 2 ^ 27
  ∧ toDouble (2 ^ 54 + 2 ^ 27 + 4) = 2 ^ 54 + 2 ^ 27 + 4
  ∧ toDouble (2 ^ 64 - 1) = 2 ^ 64.
Proof. by_eval. Qed.

Example exactLocal_loopy :
  exactLocal loopyGraph !! 0%nat = Some (Finite 2%Qc).
Proof. by_eval. Qed.

(** ** Arithmetic modulo [2^64] *)

Lemma wrap_fits x : fits (wrap x).
Proof. unfold fits, wrap. apply Z.mod_pos_bound. lia. Qed.

Lemma wrap_small x : fits x → wrap x = x.
Proof. unfold fits, wrap. intros. apply Z.mod_small. lia. Qed.

Lemma wrap_add_l a b : wrap (wrap a + b) = wrap (a + b).
Proof. unfold wrap. apply Zplus_mod_idemp_l. Qed.

Lemma wrap_add_r a b : wrap (a + wrap b) = wrap (a + b).
Proof. unfold wrap. apply Zplus_mod_idemp_r. Qed.

Lemma add64_sub64_1 k : fits k → add64 (sub64 k 1) 1 = k.
Proof.
  intros Hk. unfold add64, sub64. rewrite wrap_add_l.
  replace (k - 1 + 1) with k by lia. by apply wrap_small.
Qed.

Lemma mul64_pred d : 0 ≤ d < 2 ^ 32 → mul64 d (sub64 d 1) = d * (d - 1).
Proof.
  intros Hd. unfold mul64, sub64.
  destruct (decide (d = 0)) as [->|Hne]; [done|].
  rewrite (wrap_small (d - 1)); [|unfold fits; lia].
  apply wrap_small. unfold fits. nia.
Qed.

(** ** The graph model *)

Lemma edgesOf_lookup G u :
  edgesOf G u = [] ∨ (0 ≤ u ∧ adja G !! Z.to_nat u = Some (edgesOf G u)).
Proof.
  unfold edgesOf. case_bool_decide; [|by left].
  destruct (adja G !! Z.to_nat u) eqn:E; simpl; [right|left]; done.
Qed.

Lemma elem_of_nodes G u :
  u ∈ nodes G ↔ 0 ≤ u < upperNodeIdBound G ∧ hasNode G u = true.
Proof.
  unfold nodes. rewrite list_elem_of_filter, elem_of_seqZ. intuition lia.
Qed.

Lemma NoDup_nodes G : NoDup (nodes G).
Proof. apply NoDup_filter, NoDup_seqZ. Qed.

Lemma simpleb_simple G : simpleb G = true → simple G.
Proof.
  unfold simpleb. intros H%Is_true_true%forallb_True u.
  destruct (edgesOf_lookup G u) as [->|[Hu Hl]].
  { split; [constructor|set_solver]. }
  rewrite Forall_lookup in H.
  specialize (H (Z.to_nat u) (Z.to_nat u, edgesOf G u)).
  rewrite list_lookup_imap, Hl in H. specialize (H eq_refl). simpl in H.
  apply andb_True in H as [H1 H2].
  apply bool_decide_unpack in H1, H2.
  by rewrite Z2Nat.id in H2.
Qed.

Lemma degrees32b_degrees32 G : degrees32b G = true → degrees32 G.
Proof.
  unfold degrees32b. intros H%Is_true_true%forallb_True u. unfold degree.
  destruct (edgesOf_lookup G u) as [->|[Hu Hl]]; [done|].
  rewrite Forall_lookup in H. specialize (H _ _ Hl).
  by apply bool_decide_unpack in H.
Qed.

Lemma undirectedb_undirected G : undirectedb G = true → undirected G.
Proof.
  unfold undirectedb. intros H%Is_true_true%forallb_True u v Hv.
  destruct (edgesOf_lookup G u) as [E|[Hu Hl]].
  { rewrite E in Hv. set_solver. }
  rewrite Forall_lookup in H.
  specialize (H (Z.to_nat u) (Z.to_nat u, edgesOf G u)).
  rewrite list_lookup_imap, Hl in H. specialize (H eq_refl). simpl in H.
  apply forallb_True in H. rewrite Forall_forall in H.
  specialize (H v Hv). unfold hasEdge in H.
  apply bool_decide_unpack in H. by rewrite Z2Nat.id in H.
Qed.

(** ** Vectors written slot by slot *)

Section slots.
Context {A : Type} (f : Z → A).

Lemma length_writeSlots (init : list A) order : length (writeSlots f init order) = length init.
Proof.
  revert init. induction order as [|x order IH]; intros init; simpl; [done|].
  unfold writeSlots in *. simpl. by rewrite IH, length_insert.
Qed.

Lemma writeSlots_snoc (init : list A) order x :
  writeSlots f init (order ++ [x]) = <[Z.to_nat x := f x]> (writeSlots f init order).
Proof. unfold writeSlots. by rewrite foldl_app. Qed.

Lemma writeSlots_lookup (init : list A) order u :
  Forall (λ x, 0 ≤ x) order → 0 ≤ u < Z.of_nat (length init) → u ∈ order →
  writeSlots f init order !! Z.to_nat u = Some (f u).
Proof.
  intros Hpos Hu. induction order as [|x order IH] using rev_ind; [set_solver|].
  apply Forall_app in Hpos as [Hpos Hx%Forall_inv]. simpl in Hx.
  rewrite writeSlots_snoc. intros Hin.
  destruct (decide (x = u)) as [->|Hne].
  - apply list_lookup_insert_eq. rewrite length_writeSlots. lia.
  - rewrite list_lookup_insert_ne by lia. apply IH; [done|set_solver].
Qed.

Lemma writeSlots_lookup_other (init : list A) order i :
  (∀ x, x ∈ order → Z.to_nat x ≠ i) →
  writeSlots f init order !! i = init !! i.
Proof.
  induction order as [|x order IH] using rev_ind; [done|].
  intros Hx. rewrite writeSlots_snoc, list_lookup_insert_ne.
  - apply IH. intros y Hy. apply Hx. set_solver.
  - apply Hx. set_solver.
Qed.
End slots.

Lemma exactLocal_sched_lookup G order u :
  order ≡ₚ nodes G → u ∈ nodes G →
  exactLocal_sched order G !! Z.to_nat u = Some (localCoefficient G u).
Proof.
  intros Hp Hu. unfold exactLocal_sched.
  apply writeSlots_lookup.
  - apply Forall_forall. intros x Hx. rewrite Hp in Hx.
    apply elem_of_nodes in Hx. lia.
  - rewrite length_replicate. apply elem_of_nodes in Hu.
    unfold upperNodeIdBound in *. lia.
  - by rewrite Hp.
Qed.

Lemma exactLocal_lookup G u :
  u ∈ nodes G → exactLocal G !! Z.to_nat u = Some (localCoefficient G u).
Proof. by apply exactLocal_sched_lookup. Qed.

(** ** Counting with a wrapping counter *)

Section counting.
Context {A : Type} (P : A → Prop) `{!∀ x, Decision (P x)}.

Lemma foldl_tally_wrap (l : list A) t :
  wrap (foldl (tally P) t l) = wrap (t + Z.of_nat (length (filter P l))).
Proof.
  revert t. induction l as [|x l IH]; intros t; simpl.
  - f_equal. lia.
  - rewrite IH. unfold tally. rewrite filter_cons.
    case_bool_decide; case_decide; try done; simpl.
    unfold add64. rewrite wrap_add_l. f_equal. lia.
Qed.

Lemma foldl_tally_fits (l : list A) t : fits t → fits (foldl (tally P) t l).
Proof.
  revert t. induction l as [|x l IH]; intros t Ht; simpl; [done|].
  apply IH. unfold tally. case_bool_decide; [apply wrap_fits|done].
Qed.

Lemma foldl_tally (l : list A) t :
  fits t → foldl (tally P) t l = wrap (t + Z.of_nat (length (filter P l))).
Proof.
  intros Ht. rewrite <- foldl_tally_wrap.
  symmetry. by apply wrap_small, foldl_tally_fits.
Qed.
End counting.

(** The nested traversal: for every entry [v] of [l], count the entries of
    [g v] that satisfy [P]. *)
Lemma nested_tally {A B : Type} (P : B → Prop) `{!∀ x, Decision (P x)}
    (g : A → list B) (l : list A) t :
  fits t →
  foldl (λ t v, foldl (tally P) t (g v)) t l
  = wrap (t + Zsum (λ v, Z.of_nat (length (filter P (g v)))) l).
Proof.
  revert t. induction l as [|v l IH]; intros t Ht; simpl.
  - rewrite Z.add_0_r. symmetry. by apply wrap_small.
  - rewrite IH by (by apply foldl_tally_fits).
    rewrite foldl_tally by done. rewrite wrap_add_l. f_equal. lia.
Qed.

Lemma Zsum_nonneg {A : Type} (f : A → Z) l : (∀ x, x ∈ l → 0 ≤ f x) → 0 ≤ Zsum f l.
Proof.
  induction l as [|x l IH]; intros H; simpl; [done|].
  assert (0 ≤ f x) by (apply H; set_solver).
  assert (0 ≤ Zsum f l) by (apply IH; intros; apply H; set_solver). lia.
Qed.

Lemma Zsum_le {A : Type} (f : A → Z) l b :
  (∀ x, x ∈ l → f x ≤ b) → Zsum f l ≤ Z.of_nat (length l) * b.
Proof.
  induction l as [|x l IH]; intros H; simpl; [lia|].
  assert (f x ≤ b) by (apply H; set_solver).
  assert (Zsum f l ≤ Z.of_nat (length l) * b) by (apply IH; intros; apply H; set_solver).
  lia.
Qed.

Lemma Zsum_ext {A : Type} (f g : A → Z) l :
  (∀ x, x ∈ l → f x = g x) → Zsum f l = Zsum g l.
Proof.
  induction l as [|x l IH]; intros H; simpl; [done|].
  rewrite H by set_solver. rewrite IH; [done|]. intros; apply H; set_solver.
Qed.

(** ** exactLocal: the neighbour set and the counter *)

Lemma elem_of_uNeighbors G u w :
  w ∈ uNeighbors G u ↔ w ∈ edgesOf G u ∧ w ≠ u.
Proof.
  unfold uNeighbors.
  assert (∀ l (s : gset Z),
    w ∈ foldl (λ s v, if bool_decide (v ≠ u) then {[ v ]} ∪ s else s) s l
    ↔ (w ∈ l ∧ w ≠ u) ∨ w ∈ s) as Hgen.
  { induction l as [|v l IH]; intros s; simpl; [set_solver|].
    rewrite IH. case_bool_decide; set_solver. }
  rewrite Hgen. set_solver.
Qed.

Lemma countTriangles_eq G u nb :
  countTriangles G u nb
  = wrap (Zsum (λ v, Z.of_nat (length (filter (λ w, w ∈ nb) (edgesOf G v))))
               (edgesOf G u)).
Proof.
  unfold countTriangles.
  change (λ triangles w, if bool_decide (w ∈ nb) then add64 triangles 1 else triangles)
    with (tally (λ w, w ∈ nb)).
  rewrite (nested_tally (λ w, w ∈ nb) (edgesOf G)); [done|].
  unfold fits. lia.
Qed.

(** ** Quotients of counts *)

Lemma Qc_of_Z_le a b : a ≤ b → (Qc_of_Z a ≤ Qc_of_Z b)%Qc.
Proof. exact (proj1 (Z2Qc_inj_le a b)). Qed.

Lemma Qc_of_Z_pos n : 0 < n → (0 < Qc_of_Z n)%Qc.
Proof. intros. rewrite <- Z2Qc_inj_0. by apply (proj1 (Z2Qc_inj_lt 0 n)). Qed.

Lemma Qc_of_Z_nonneg n : 0 ≤ n → (0 ≤ Qc_of_Z n)%Qc.
Proof. intros. rewrite <- Z2Qc_inj_0. by apply Qc_of_Z_le. Qed.

Lemma ddiv_counts a b :
  b ≠ 0 → ddiv (of_count a) (of_count b) = Finite (Qc_of_Z a / Qc_of_Z b)%Qc.
Proof.
  intros Hb. unfold ddiv, of_count. rewrite bool_decide_eq_false_2; [done|].
  rewrite <- Z2Qc_inj_0. by intros ?%Z2Qc_inj.
Qed.

Lemma quotient_in_unit_interval a b :
  0 ≤ a ≤ b → 0 < b → in_unit_interval (Finite (Qc_of_Z a / Qc_of_Z b)%Qc).
Proof.
  intros [Ha Hab] Hb. simpl. unfold Qcdiv.
  pose proof (Qc_of_Z_pos b Hb) as Hb'.
  pose proof (Qc_of_Z_nonneg a Ha) as Ha'.
  assert (0 ≤ / Qc_of_Z b)%Qc as Hi by (by apply Qclt_le_weak, Qcinv_pos).
  split.
  - by apply Qcmult_nonneg_nonneg.
  - rewrite <- (Qcmult_inv_r (Qc_of_Z b)).
    + apply Qcmult_le_mono_nonneg_r; [done|]. by apply Qc_of_Z_le.
    + intros E. rewrite E in Hb'. by apply (irreflexivity Qclt 0%Qc).
Qed.

(** ** exactLocal on graphs without parallel edges and self-loops *)

Lemma closed_pairs_lt_degree G u v :
  NoDup (edgesOf G v) → v ∈ edgesOf G u → (v ≠ u → v ∉ edgesOf G v) →
  (length (filter (λ w, w ∈ uNeighbors G u) (edgesOf G v)) < length (edgesOf G u))%nat.
Proof.
  intros Hnd Hv Hloop.
  set (L := filter (λ w, w ∈ uNeighbors G u) (edgesOf G v)).
  assert (v :: L ⊆+ edgesOf G u) as Hsub.
  { apply NoDup_submseteq.
    - constructor; [|by apply NoDup_filter].
      unfold L. rewrite list_elem_of_filter, elem_of_uNeighbors.
      destruct (decide (v = u)); naive_solver.
    - intros x [->|Hx]%elem_of_cons; [done|].
      unfold L in Hx. rewrite list_elem_of_filter, elem_of_uNeighbors in Hx.
      naive_solver. }
  apply submseteq_length in Hsub. simpl in Hsub. lia.
Qed.

Lemma closed_pairs_sum_le G u :
  (∀ v, v ∈ edgesOf G u → NoDup (edgesOf G v)) →
  (∀ v, v ∈ edgesOf G u → v ≠ u → v ∉ edgesOf G v) →
  0 ≤ Zsum (λ v, Z.of_nat (length (filter (λ w, w ∈ uNeighbors G u) (edgesOf G v))))
           (edgesOf G u)
    ≤ degree G u * (degree G u - 1).
Proof.
  intros Hnd Hloop. split.
  - apply Zsum_nonneg. intros; lia.
  - unfold degree. apply Zsum_le. intros v Hv.
    pose proof (closed_pairs_lt_degree G u v (Hnd v Hv) Hv (Hloop v Hv)). lia.
Qed.

Lemma countTriangles_le G u :
  (∀ v, v ∈ edgesOf G u → NoDup (edgesOf G v)) →
  (∀ v, v ∈ edgesOf G u → v ≠ u → v ∉ edgesOf G v) →
  degree G u < 2 ^ 32 →
  0 ≤ countTriangles G u (uNeighbors G u) ≤ degree G u * (degree G u - 1).
Proof.
  intros Hnd Hloop Hd. rewrite countTriangles_eq.
  pose proof (closed_pairs_sum_le G u Hnd Hloop) as Hs.
  rewrite wrap_small; [done|].
  unfold fits. unfold degree in *. nia.
Qed.

Lemma localCoefficient_low_degree G u :
  degree G u < 2 → localCoefficient G u = Finite 0%Qc.
Proof. intros Hd. unfold localCoefficient. by rewrite bool_decide_eq_true_2. Qed.

Lemma localCoefficient_high_degree G u :
  2 ≤ degree G u < 2 ^ 32 →
  localCoefficient G u
  = Finite (Qc_of_Z (countTriangles G u (uNeighbors G u))
            / Qc_of_Z (degree G u * (degree G u - 1)))%Qc.
Proof.
  intros Hd. unfold localCoefficient.
  rewrite bool_decide_eq_false_2 by lia.
  rewrite mul64_pred by lia. apply ddiv_counts. nia.
Qed.

Lemma localCoefficient_in_unit_interval G u :
  (∀ v, v ∈ edgesOf G u → NoDup (edgesOf G v)) →
  (∀ v, v ∈ edgesOf G u → v ≠ u → v ∉ edgesOf G v) →
  degree G u < 2 ^ 32 →
  in_unit_interval (localCoefficient G u).
Proof.
  intros Hnd Hloop Hd.
  destruct (decide (degree G u < 2)) as [Hlow|Hhigh].
  - rewrite localCoefficient_low_degree by done. simpl. done.
  - rewrite localCoefficient_high_degree by lia.
    apply quotient_in_unit_interval; [|nia].
    by apply countTriangles_le.
Qed.

Lemma exactLocal_entries G i x :
  exactLocal G !! i = Some x →
  x = Finite 0%Qc ∨ ∃ u, u ∈ nodes G ∧ x = localCoefficient G u.
Proof.
  intros Hx.
  destruct (decide (Z.of_nat i ∈ nodes G)) as [Hu|Hno].
  - rewrite <- (Nat2Z.id i), exactLocal_lookup in Hx by done.
    right. exists (Z.of_nat i). naive_solver.
  - left. unfold exactLocal, exactLocal_sched in Hx.
    rewrite writeSlots_lookup_other in Hx.
    + apply lookup_replicate in Hx. naive_solver.
    + intros y Hy <-. apply Hno.
      pose proof (proj1 (elem_of_nodes G y) Hy). by rewrite Z2Nat.id by lia.
Qed.

(** C8, as amended.  In every graph the entry of [exactLocal] at an existing
    node of degree below 2 is [0.0]; in a graph without parallel edges and
    without self-loops whose degrees are below [2^32], every entry of
    [exactLocal] lies in the interval [0, 1]. *)
Theorem exactLocal_unit_interval_simple G :
  (∀ u, u ∈ nodes G → degree G u < 2 →
        exactLocal G !! Z.to_nat u = Some (Finite 0%Qc)) ∧
  (simple G → degrees32 G →
   ∀ i x, exactLocal G !! i = Some x → in_unit_interval x).
Proof.
  split.
  - intros u Hu Hd. rewrite exactLocal_lookup by done.
    by rewrite localCoefficient_low_degree.
  - intros Hs Hd i x Hx.
    destruct (exactLocal_entries G i x Hx) as [->|(u & Hu & ->)]; [done|].
    apply localCoefficient_in_unit_interval; [| |apply Hd].
    + intros v _. apply Hs.
    + intros v _ _. apply Hs.
Qed.

Lemma exactLocal_unit_interval_simple_witness :
  simple triangleGraph ∧ degrees32 triangleGraph ∧
  exactLocal triangleGraph !! 0%nat = Some (Finite 1%Qc) ∧
  in_unit_interval (Finite 1%Qc).
Proof.
  assert (simple triangleGraph) as Hs by (by apply simpleb_simple).
  assert (degrees32 triangleGraph) as Hd by (by apply degrees32b_degrees32).
  assert (exactLocal triangleGraph !! 0%nat = Some (Finite 1%Qc)) as Hx by by_eval.
  split; [exact Hs|]. split; [exact Hd|]. split; [exact Hx|].
  exact (proj2 (exactLocal_unit_interval_simple triangleGraph)
               Hs Hd 0%nat (Finite 1%Qc) Hx).
Defined.

(** C8, as stated, fails: with a self-loop at each neighbour of node 0, and
    with parallel edges between the two neighbours of node 0, the entry of
    node 0 is 2, respectively 3. *)
Lemma exactLocal_exceeds_one :
  (exactLocal loopyGraph !! 0%nat = Some (Finite 2%Qc)
   ∧ ¬ in_unit_interval (Finite 2%Qc))
  ∧ (exactLocal multiGraph !! 0%nat = Some (Finite (Qc_of_Z 3))
     ∧ ¬ in_unit_interval (Finite (Qc_of_Z 3))).
Proof. repeat split; by_eval. Qed.

(** ** Each triangle through a node is counted twice *)

Lemma filter_member_swap (l k : list Z) :
  NoDup l → NoDup k →
  length (filter (λ w, w ∈ k) l) = length (filter (λ w, w ∈ l) k).
Proof.
  intros Hl Hk. apply Permutation_length, NoDup_Permutation.
  - by apply NoDup_filter.
  - by apply NoDup_filter.
  - intros x. rewrite !list_elem_of_filter. tauto.
Qed.

Lemma Zsum_plus {A : Type} (f g : A → Z) l :
  Zsum (λ x, f x + g x) l = Zsum f l + Zsum g l.
Proof. induction l as [|x l IH]; simpl; lia. Qed.

Lemma Zsum_indicator {A : Type} (P : A → Prop) `{!∀ x, Decision (P x)} (l : list A) :
  Zsum (λ x, if decide (P x) then 1 else 0) l = Z.of_nat (length (filter P l)).
Proof.
  induction l as [|x l IH]; simpl; [done|].
  rewrite filter_cons. case_decide; simpl; lia.
Qed.

Lemma length_filter_ext {A : Type} (P Q : A → Prop)
    `{!∀ x, Decision (P x)} `{!∀ x, Decision (Q x)} (l : list A) :
  (∀ x, x ∈ l → P x ↔ Q x) → length (filter P l) = length (filter Q l).
Proof.
  induction l as [|x l IH]; intros Hext; [done|].
  rewrite !filter_cons.
  assert (P x ↔ Q x) as Hx by (apply Hext; set_solver).
  assert (length (filter P l) = length (filter Q l)) as Hl
    by (apply IH; intros; apply Hext; set_solver).
  repeat case_decide; simpl; try tauto; lia.
Qed.

(** Summing, over the entries [v] of [l], the entries of [l] adjacent to [v]
    counts every adjacent pair from both sides. *)
Lemma adjacent_pairs_twice G l :
  (∀ v, v ∈ l → v ∉ edgesOf G v) →
  (∀ v w, v ∈ l → w ∈ l → w ∈ edgesOf G v → v ∈ edgesOf G w) →
  Zsum (λ v, Z.of_nat (length (filter (λ w, w ∈ edgesOf G v) l))) l
  = 2 * adjacentPairs G l.
Proof.
  induction l as [|x l IH]; intros Hirr Hsym; [done|].
  cbn [Zsum foldr adjacentPairs].
  fold (Zsum (λ v, Z.of_nat (length (filter (λ w, w ∈ edgesOf G v) (x :: l)))) l).
  rewrite filter_cons_False by (apply Hirr; set_solver).
  rewrite (Zsum_ext _ (λ v, (if decide (x ∈ edgesOf G v) then 1 else 0)
                            + Z.of_nat (length (filter (λ w, w ∈ edgesOf G v) l)))).
  2:{ intros v Hv. rewrite filter_cons. case_decide; simpl; lia. }
  rewrite Zsum_plus, Zsum_indicator.
  rewrite IH.
  2:{ intros; apply Hirr; set_solver. }
  2:{ intros; apply Hsym; set_solver. }
  rewrite (length_filter_ext (λ v, x ∈ edgesOf G v) (λ w, w ∈ edgesOf G x)).
  2:{ intros v Hv. split; intros; apply Hsym; set_solver. }
  lia.
Qed.

Lemma adjacentPairs_nonneg G l : 0 ≤ adjacentPairs G l.
Proof. induction l; simpl; lia. Qed.

Lemma closed_pairs_simple G u :
  simple G → undirected G →
  Zsum (λ v, Z.of_nat (length (filter (λ w, w ∈ uNeighbors G u) (edgesOf G v))))
       (edgesOf G u)
  = 2 * trianglesAt G u.
Proof.
  intros Hs Hsym. unfold trianglesAt.
  rewrite <- adjacent_pairs_twice.
  - apply Zsum_ext. intros v Hv. f_equal.
    rewrite (length_filter_ext _ (λ w, w ∈ edgesOf G u)).
    + apply filter_member_swap; apply Hs.
    + intros w _. rewrite elem_of_uNeighbors.
      destruct (Hs u) as [_ Hu]. naive_solver.
  - intros v _. apply Hs.
  - intros v w _ _. apply Hsym.
Qed.

(** C1.  In a graph without self-loops and parallel edges, at an existing
    node [u] of degree [d]: if [d >= 2] the counter of [exactLocal] is twice
    the number of triangles through [u] (reduced modulo [2^64], as the
    counter is) and the entry at [u] is that counter divided by
    [d * (d - 1)] (computed modulo [2^64]); for [d < 2^32] neither wraps, the
    counter is exactly twice the number of triangles and the entry is their
    quotient by [d * (d - 1)]; if [d < 2] the entry is [0.0]. *)
Theorem exactLocal_counts_triangles_twice G u :
  simple G → undirected G → u ∈ nodes G →
  (2 ≤ degree G u →
   countTriangles G u (uNeighbors G u) = wrap (2 * trianglesAt G u)
   ∧ exactLocal G !! Z.to_nat u
     = Some (ddiv (of_count (countTriangles G u (uNeighbors G u)))
                  (of_count (mul64 (degree G u) (sub64 (degree G u) 1)))))
  ∧ (2 ≤ degree G u < 2 ^ 32 →
     countTriangles G u (uNeighbors G u) = 2 * trianglesAt G u
     ∧ exactLocal G !! Z.to_nat u
       = Some (Finite (Qc_of_Z (2 * trianglesAt G u)
                       / Qc_of_Z (degree G u * (degree G u - 1)))%Qc))
  ∧ (degree G u < 2 → exactLocal G !! Z.to_nat u = Some (Finite 0%Qc)).
Proof.
  intros Hs Hsym Hu. split; [|split].
  - intros Hd. split.
    + by rewrite countTriangles_eq, closed_pairs_simple.
    + rewrite exactLocal_lookup by done. unfold localCoefficient.
      by rewrite bool_decide_eq_false_2 by lia.
  - intros Hd.
    assert (countTriangles G u (uNeighbors G u) = 2 * trianglesAt G u) as Hc.
    { assert (0 ≤ 2 * trianglesAt G u ≤ degree G u * (degree G u - 1)) as Hb.
      { rewrite <- closed_pairs_simple by done.
        apply closed_pairs_sum_le; intros; apply Hs. }
      rewrite countTriangles_eq, closed_pairs_simple by done.
      apply wrap_small. unfold fits. nia. }
    split; [done|].
    rewrite exactLocal_lookup by done.
    rewrite localCoefficient_high_degree by done. by rewrite Hc.
  - intros Hd. rewrite exactLocal_lookup by done.
    by rewrite localCoefficient_low_degree.
Qed.

Lemma exactLocal_counts_triangles_twice_witness :
  countTriangles triangleGraph 0 (uNeighbors triangleGraph 0)
  = 2 * trianglesAt triangleGraph 0
  ∧ exactLocal triangleGraph !! Z.to_nat 0
    = Some (Finite (Qc_of_Z (2 * trianglesAt triangleGraph 0)
                    / Qc_of_Z (degree triangleGraph 0 * (degree triangleGraph 0 - 1)))%Qc).
Proof.
  refine (proj1 (proj2 (exactLocal_counts_triangles_twice triangleGraph 0 _ _ _)) _).
  - by apply simpleb_simple.
  - by apply undirectedb_undirected.
  - by_eval.
  - by_eval.
Defined.

Example trianglesAt_triangle : trianglesAt triangleGraph 0 = 1.
Proof. reflexivity. Qed.

(** ** The triangles through a node as unordered pairs of neighbours *)

(** The pairs [(v, w)] of neighbours of [u] with [v < w] and [w] adjacent
    to [v]: one pair per triangle through [u] in a simple graph. *)
Lemma adjacentPairs_ordered G (l : list Z) :
  NoDup l →
  (∀ v w, v ∈ l → w ∈ l → w ∈ edgesOf G v → v ∈ edgesOf G w) →
  adjacentPairs G l
  = Zsum (λ v, Z.of_nat (length (filter (λ w, v < w ∧ w ∈ edgesOf G v) l))) l.
Proof.
  induction l as [|x l IH]; intros Hnd Hsym; [done|].
  apply NoDup_cons in Hnd as [Hx Hnd].
  cbn [adjacentPairs Zsum foldr].
  fold (Zsum (λ v, Z.of_nat (length (filter (λ w, v < w ∧ w ∈ edgesOf G v) (x :: l)))) l).
  rewrite IH; [|done|intros; apply Hsym; set_solver].
  rewrite filter_cons. case_decide as Hxx; [lia|].
  rewrite (Zsum_ext
             (λ v, Z.of_nat (length (filter (λ w, v < w ∧ w ∈ edgesOf G v) (x :: l))))
             (λ v, (if decide (v < x ∧ v ∈ edgesOf G x) then 1 else 0)
                   + Z.of_nat (length (filter (λ w, v < w ∧ w ∈ edgesOf G v) l)))).
  2:{ intros v Hv. rewrite filter_cons.
      assert (x ∈ edgesOf G v ↔ v ∈ edgesOf G x) as Hvx
        by (split; intros; apply Hsym; set_solver).
      repeat case_decide; simpl; try lia; tauto. }
  rewrite Zsum_plus, Zsum_indicator.
  assert (Z.of_nat (length (filter (λ w, w ∈ edgesOf G x) l))
          = Z.of_nat (length (filter (λ w, x < w ∧ w ∈ edgesOf G x) l))
            + Z.of_nat (length (filter (λ v, v < x ∧ v ∈ edgesOf G x) l))) as Hsplit.
  { clear IH Hsym Hnd. induction l as [|a l IHl]; [done|].
    assert (a ≠ x) by set_solver.
    rewrite !filter_cons.
    assert (Z.of_nat (length (filter (λ w, w ∈ edgesOf G x) l))
            = Z.of_nat (length (filter (λ w, x < w ∧ w ∈ edgesOf G x) l))
              + Z.of_nat (length (filter (λ v, v < x ∧ v ∈ edgesOf G x) l))) as E
      by (apply IHl; set_solver).
    assert (x < a ∨ a < x) as Hlt by lia.
    repeat case_decide; simpl length; try lia; exfalso; tauto. }
  lia.
Qed.

Lemma trianglesAt_unordered_pairs G u :
  simple G → undirected G →
  trianglesAt G u
  = Zsum (λ v, Z.of_nat (length (filter (λ w, v < w ∧ w ∈ edgesOf G v)
                                         (edgesOf G u))))
         (edgesOf G u).
Proof.
  intros Hs Hsym. apply adjacentPairs_ordered; [apply Hs|].
  intros v w _ _. apply Hsym.
Qed.

(** ** A self-loop at the node itself *)

Lemma length_filter_split {A : Type} (P : A → Prop) `{!∀ x, Decision (P x)} (l : list A) :
  length l = (length (filter P l) + length (filter (λ x, ¬ P x) l))%nat.
Proof.
  induction l as [|x l IH]; [done|].
  rewrite !filter_cons. repeat case_decide; simpl; try tauto; lia.
Qed.

(** C9.  The neighbour set of [u] does not contain [u], so an entry [w = u]
    met by the traversal never increments the counter, and the counter is the
    number of pairs [(v, w)] with [w] a neighbour of [u] other than [u];
    every self-loop of [u] is nevertheless one of the [degree u] entries, so
    that with a self-loop the denominator [d * (d - 1)] is larger than the
    one the other entries alone would give. *)
Theorem exactLocal_self_loop G u :
  (u ∉ uNeighbors G u)
  ∧ (∀ t, tally (λ w, w ∈ uNeighbors G u) t u = t)
  ∧ countTriangles G u (uNeighbors G u)
    = wrap (Zsum (λ v, Z.of_nat (length (filter (λ w, w ∈ edgesOf G u ∧ w ≠ u)
                                                (edgesOf G v))))
                 (edgesOf G u))
  ∧ degree G u
    = Z.of_nat (length (filter (λ w, w = u) (edgesOf G u)))
      + Z.of_nat (length (filter (λ w, w ≠ u) (edgesOf G u)))
  ∧ (u ∈ edgesOf G u → 2 ≤ degree G u < 2 ^ 32 →
     let m := Z.of_nat (length (filter (λ w, w ≠ u) (edgesOf G u))) in
     localCoefficient G u
     = Finite (Qc_of_Z (countTriangles G u (uNeighbors G u))
               / Qc_of_Z (degree G u * (degree G u - 1)))%Qc
     ∧ m * (m - 1) < degree G u * (degree G u - 1)).
Proof.
  assert (u ∉ uNeighbors G u) as Hnot by (rewrite elem_of_uNeighbors; tauto).
  split; [done|]. split.
  { intros t. unfold tally. by rewrite bool_decide_eq_false_2. }
  split.
  { rewrite countTriangles_eq. f_equal. apply Zsum_ext. intros v _. f_equal.
    apply length_filter_ext. intros w _. apply elem_of_uNeighbors. }
  assert (degree G u
    = Z.of_nat (length (filter (λ w, w = u) (edgesOf G u)))
      + Z.of_nat (length (filter (λ w, w ≠ u) (edgesOf G u)))) as Hdeg.
  { unfold degree. rewrite (length_filter_split (λ w, w = u)). lia. }
  split; [done|].
  intros Hloop Hd m. split; [by apply localCoefficient_high_degree|].
  assert (0 < Z.of_nat (length (filter (λ w, w = u) (edgesOf G u)))).
  { destruct (filter (λ w, w = u) (edgesOf G u)) eqn:E; simpl; [|lia].
    assert (u ∈ filter (λ w, w = u) (edgesOf G u)) as Hin
      by (by apply list_elem_of_filter).
    rewrite E in Hin. set_solver. }
  subst m. nia.
Qed.

Lemma exactLocal_self_loop_witness :
  localCoefficient selfLoopGraph 0
  = Finite (Qc_of_Z (countTriangles selfLoopGraph 0 (uNeighbors selfLoopGraph 0))
            / Qc_of_Z (degree selfLoopGraph 0 * (degree selfLoopGraph 0 - 1)))%Qc
  ∧ 2 * (2 - 1) < degree selfLoopGraph 0 * (degree selfLoopGraph 0 - 1).
Proof.
  apply (proj2 (proj2 (proj2 (proj2 (exactLocal_self_loop selfLoopGraph 0))))).
  - by_eval.
  - by_eval.
Defined.

Example exactLocal_selfLoopGraph :
  exactLocal selfLoopGraph !! 0%nat = Some (Finite (Qc_of_Z 2 / Qc_of_Z 3)%Qc).
Proof. by_eval. Qed.

(** ** avgLocal *)

Lemma avgLocal_loop (e : Z → double) (P : Z → Prop) `{!∀ x, Decision (P x)}
    (l : list Z) sum size :
  foldl (λ '(sum, size) u,
           if bool_decide (P u) then (dadd sum (e u), add64 size 1) else (sum, size))
        (sum, size) l
  = (foldl dadd sum (map e (filter P l)), foldl (tally P) size l).
Proof.
  revert sum size. induction l as [|u l IH]; intros sum size; [done|].
  cbn [foldl]. rewrite filter_cons. unfold tally at 2.
  case_bool_decide; case_decide; try done; rewrite IH; done.
Qed.

Lemma length_filter_nodes_fits G (P : Z → Prop) `{!∀ x, Decision (P x)} :
  fits (upperNodeIdBound G) → fits (Z.of_nat (length (filter P (nodes G)))).
Proof.
  unfold fits, nodes, upperNodeIdBound. intros Hz.
  pose proof (length_filter P (filter (λ u, hasNode G u = true)
                (seqZ 0 (Z.of_nat (length (exists_ G)))))) as H1.
  pose proof (length_filter (λ u, hasNode G u = true)
                (seqZ 0 (Z.of_nat (length (exists_ G))))) as H2.
  rewrite length_seqZ in H2. lia.
Qed.

(** C6.  [avgLocal] is the arithmetic mean of the entries of [exactLocal] at
    the existing nodes of degree at least 2, when there is such a node; when
    there is none it is the not-a-number value, and not [0.0]. *)
Theorem avgLocal_mean_or_nan G :
  fits (upperNodeIdBound G) →
  let us := filter (λ u, 2 ≤ degree G u) (nodes G) in
  (us ≠ [] → avgLocal G = mean (map (vget (Finite 0%Qc) (exactLocal G)) us))
  ∧ (us = [] → avgLocal G = NaN ∧ avgLocal G ≠ Finite 0%Qc).
Proof.
  intros Hz us.
  assert (avgLocal G = mean (map (vget (Finite 0%Qc) (exactLocal G)) us)) as Heq.
  { unfold avgLocal.
    rewrite (avgLocal_loop (vget (Finite 0%Qc) (exactLocal G)) (λ u, 2 ≤ degree G u)).
    unfold mean. fold us. rewrite length_map. do 2 f_equal.
    rewrite foldl_tally by (unfold fits; lia).
    rewrite Z.add_0_l. fold us. by apply wrap_small, length_filter_nodes_fits. }
  split; [done|].
  intros E. rewrite Heq, E. by split.
Qed.

Lemma avgLocal_mean_or_nan_witness :
  avgLocal triangleGraph
  = mean (map (vget (Finite 0%Qc) (exactLocal triangleGraph))
              (filter (λ u, 2 ≤ degree triangleGraph u) (nodes triangleGraph)))
  ∧ (avgLocal edgeGraph = NaN ∧ avgLocal edgeGraph ≠ Finite 0%Qc).
Proof.
  split.
  - apply (avgLocal_mean_or_nan triangleGraph); by_eval.
  - apply (avgLocal_mean_or_nan edgeGraph); by_eval.
Defined.

Example avgLocal_edge : avgLocal edgeGraph = NaN.
Proof. by_eval. Qed.

(** ** exactGlobal *)

Lemma Zsum_app {A : Type} (f : A → Z) l k : Zsum f (l ++ k) = Zsum f l + Zsum f k.
Proof. induction l as [|x l IH]; simpl; lia. Qed.

Lemma Zsum_Permutation {A : Type} (f : A → Z) l k : l ≡ₚ k → Zsum f l = Zsum f k.
Proof. induction 1; simpl; lia. Qed.

Lemma sum_chunk (h : Z → double) (g : Z → Z) chunk a :
  (∀ u, u ∈ chunk → h u = of_count (g u)) →
  foldl (λ sum u, dadd sum (h u)) (of_count a) chunk = of_count (a + Zsum g chunk).
Proof.
  revert a. induction chunk as [|u chunk IH]; intros a Hh; simpl.
  - by rewrite Z.add_0_r.
  - rewrite Hh by set_solver. unfold of_count at 1 2. simpl.
    rewrite <- Z2Qc_inj_add. change (Finite (Qc_of_Z (a + g u))) with (of_count (a + g u)).
    rewrite IH by (intros; apply Hh; set_solver).
    unfold of_count. by rewrite Z.add_assoc.
Qed.

Lemma of_count_0 : of_count 0 = Finite 0%Qc.
Proof. unfold of_count. by rewrite Z2Qc_inj_0. Qed.

Lemma sum_chunk0 (h : Z → double) (g : Z → Z) chunk :
  (∀ u, u ∈ chunk → h u = of_count (g u)) →
  foldl (λ sum u, dadd sum (h u)) (Finite 0%Qc) chunk = of_count (Zsum g chunk).
Proof. intros Hh. rewrite <- of_count_0. by rewrite (sum_chunk h g chunk 0). Qed.

Lemma sum_chunks (h : Z → double) (g : Z → Z) chunks a :
  (∀ u, u ∈ concat chunks → h u = of_count (g u)) →
  foldl dadd (of_count a)
        (map (λ chunk, foldl (λ sum u, dadd sum (h u)) (Finite 0%Qc) chunk) chunks)
  = of_count (a + Zsum g (concat chunks)).
Proof.
  revert a. induction chunks as [|chunk chunks IH]; intros a Hh; simpl.
  - by rewrite Z.add_0_r.
  - rewrite (sum_chunk0 h g chunk) by (intros; apply Hh; set_solver).
    unfold of_count at 1 2. simpl. rewrite <- Z2Qc_inj_add.
    change (Finite (Qc_of_Z (a + Zsum g chunk))) with (of_count (a + Zsum g chunk)).
    rewrite IH by (intros; apply Hh; set_solver).
    rewrite Zsum_app. unfold of_count. by rewrite Z.add_assoc.
Qed.

Lemma parallelSumForNodes_counts (h : Z → double) (g : Z → Z) chunks :
  (∀ u, u ∈ concat chunks → h u = of_count (g u)) →
  parallelSumForNodes chunks h = of_count (Zsum g (concat chunks)).
Proof.
  intros Hh. unfold parallelSumForNodes.
  pose proof (sum_chunks h g chunks 0 Hh) as Hs.
  rewrite of_count_0 in Hs. by rewrite Hs.
Qed.

Lemma globalTriangles_eq G u :
  globalTriangles G u
  = if bool_decide (1 < degree G u)
    then wrap (Zsum (λ v, Z.of_nat (length (filter (λ w, w ∈ edgesOf G u) (edgesOf G v))))
                    (edgesOf G u))
    else 0.
Proof.
  unfold globalTriangles. case_bool_decide; [|done].
  change (λ tr w, if hasEdge G u w then add64 tr 1 else tr)
    with (tally (λ w, w ∈ edgesOf G u)).
  rewrite (nested_tally (λ w, w ∈ edgesOf G u) (edgesOf G)); [done|].
  unfold fits. lia.
Qed.

Lemma exactGlobal_sched_eq G order chunks2 chunks3 :
  valid_order G order → valid_chunks G chunks2 → valid_chunks G chunks3 →
  exactGlobal_sched order chunks2 chunks3 G
  = ddiv (of_count (Zsum (globalTriangles G) (nodes G)))
         (of_count (Zsum (λ u, mul64 (degree G u) (sub64 (degree G u) 1)) (nodes G))).
Proof.
  unfold valid_order, valid_chunks. intros Ho H2 H3.
  unfold exactGlobal_sched. cbv zeta.
  rewrite (parallelSumForNodes_counts _
             (λ u, mul64 (degree G u) (sub64 (degree G u) 1)) chunks2)
    by (intros; reflexivity).
  rewrite (parallelSumForNodes_counts _ (globalTriangles G) chunks3).
  - by rewrite (Zsum_Permutation _ _ _ H2), (Zsum_Permutation _ _ _ H3).
  - intros u Hu. rewrite H3 in Hu. f_equal. unfold vget.
    rewrite writeSlots_lookup; [done| | |by rewrite Ho].
    + apply Forall_forall. intros x Hx. rewrite Ho in Hx.
      apply elem_of_nodes in Hx. lia.
    + rewrite length_replicate. apply elem_of_nodes in Hu. lia.
Qed.

Lemma toDouble_exact n : n ≤ 2 ^ 53 → toDouble n = n.
Proof.
  intros Hn. unfold toDouble. case_bool_decide; [done|].
  by assert (n = 2 ^ 53) as -> by lia.
Qed.









(** ** What the weight vector holds *)

Lemma StronglySorted_seqZ m n : StronglySorted Z.lt (seqZ m n).
Proof.
  remember (Z.to_nat n) as k eqn:Hk. revert m n Hk.
  induction k as [|k IH]; intros m n Hk.
  - rewrite seqZ_nil by lia. constructor.
  - rewrite seqZ_cons by lia. constructor.
    + apply IH. lia.
    + apply Forall_seqZ. intros; lia.
Qed.

Lemma StronglySorted_filter {A : Type} (R : relation A) (P : A → Prop)
    `{!∀ x, Decision (P x)} (l : list A) :
  StronglySorted R l → StronglySorted R (filter P l).
Proof.
  induction 1 as [|a l Hs IH Ha]; [constructor|].
  rewrite filter_cons. case_decide; [|done].
  constructor; [done|].
  rewrite Forall_forall in *. intros x [_ Hx]%list_elem_of_filter. by apply Ha.
Qed.

Lemma StronglySorted_nodes G : StronglySorted Z.lt (nodes G).
Proof. apply StronglySorted_filter, StronglySorted_seqZ. Qed.

Lemma filter_le_snoc_last (l : list Z) x :
  (∀ y, y ∈ l → y < x) → filter (λ v, v ≤ x) (l ++ [x]) = l ++ [x].
Proof.
  intros Hl. rewrite filter_app. f_equal.
  - induction l as [|a l IH]; [done|].
    rewrite filter_cons_True by (apply Z.lt_le_incl, Hl; set_solver).
    f_equal. apply IH. intros; apply Hl; set_solver.
  - by rewrite filter_cons_True, filter_nil by lia.
Qed.

Lemma filter_le_snoc_before (l : list Z) x u :
  u < x → filter (λ v, v ≤ u) (l ++ [x]) = filter (λ v, v ≤ u) l.
Proof.
  intros Hu. rewrite filter_app, filter_cons_False, filter_nil by lia.
  by rewrite app_nil_r.
Qed.

Lemma prefix_fold G (init : list Z) (l : list Z) :
  StronglySorted Z.lt l → Forall (λ v, 0 ≤ v < Z.of_nat (length init)) l →
  let r := foldl (prefixStep G) (init, 0) l in
  length r.1 = length init
  ∧ r.2 = wrap (Zsum (tripleMass G) l)
  ∧ (∀ u, u ∈ l →
       r.1 !! Z.to_nat u = Some (wrap (Zsum (tripleMass G) (filter (λ v, v ≤ u) l))))
  ∧ (∀ i, (∀ v, v ∈ l → Z.to_nat v ≠ i) → r.1 !! i = init !! i).
Proof.
  induction l as [|x l IH] using rev_ind; intros Hs Hr r.
  { subst r. simpl. split; [done|]. split; [done|]. split; [set_solver|done]. }
  apply Forall_app in Hr as [Hr Hx%Forall_inv]. simpl in Hx.
  assert (∀ y, y ∈ l → y < x) as Hlt.
  { intros y Hy.
    apply (StronglySorted_app_1_elem_of Z.lt l [x]); [done|done|set_solver]. }
  destruct (IH (StronglySorted_app_1_l Z.lt l [x] Hs) Hr) as (Hlen & Hsum & Hin & Hout).
  subst r. rewrite foldl_app. cbn [foldl].
  destruct (foldl (prefixStep G) (init, 0) l) as [weight psum]. simpl in *.
  assert (add64 psum (mul64 (degree G x) (sub64 (degree G x) 1))
          = wrap (Zsum (tripleMass G) (l ++ [x]))) as Hp.
  { rewrite Hsum, Zsum_app. unfold add64. rewrite wrap_add_l. simpl.
    unfold tripleMass. f_equal. lia. }
  rewrite Hp. split; [by rewrite length_insert|]. split; [done|]. split.
  - intros u [Hu| ->%list_elem_of_singleton]%elem_of_app.
    + assert (u < x) by (by apply Hlt).
      rewrite list_lookup_insert_ne.
      * rewrite filter_le_snoc_before by done. by apply Hin.
      * rewrite Forall_forall in Hr. specialize (Hr u Hu). simpl in Hr. lia.
    + rewrite filter_le_snoc_last by done.
      apply list_lookup_insert_eq. lia.
  - intros i Hi. rewrite list_lookup_insert_ne by (apply Hi; set_solver).
    apply Hout. intros; apply Hi; set_solver.
Qed.

Lemma prefixWeights_at G :
  length (prefixWeights G).1 = Z.to_nat (upperNodeIdBound G)
  ∧ (prefixWeights G).2 = wrap (Zsum (tripleMass G) (nodes G))
  ∧ (∀ u, u ∈ nodes G →
       vget 0 (prefixWeights G).1 u = wrap (cumulativeMass G u))
  ∧ (∀ i, 0 ≤ i → i ∉ nodes G → vget 0 (prefixWeights G).1 i = 0).
Proof.
  pose proof (prefix_fold G (replicate (Z.to_nat (upperNodeIdBound G)) 0) (nodes G)
                (StronglySorted_nodes G)) as H.
  destruct H as (Hlen & Hsum & Hin & Hout).
  { apply Forall_forall. intros v Hv%elem_of_nodes. rewrite length_replicate. lia. }
  rewrite length_replicate in Hlen.
  fold (prefixWeights G) in Hlen, Hsum, Hin, Hout.
  split; [done|]. split; [done|]. split.
  - intros u Hu. unfold vget, cumulativeMass. by rewrite (Hin u Hu).
  - intros i Hi Hno. unfold vget. rewrite Hout.
    + destruct (replicate _ _ !! _) eqn:E; [|done].
      apply lookup_replicate in E. naive_solver.
    + intros v Hv Heq. apply Hno.
      pose proof (proj1 (elem_of_nodes G v) Hv).
      by replace i with v by lia.
Qed.

(** X1.  The vector [weight] of [approxGlobal] has one slot per id below the
    bound; the slot of an existing node holds, modulo [2^64], the sum of the
    weights of the existing nodes up to it, the slot of a deleted id holds 0,
    and [psum] is the sum of all weights modulo [2^64]. *)
Theorem prefixWeights_slots G :
  length (prefixWeights G).1 = Z.to_nat (upperNodeIdBound G)
  ∧ (prefixWeights G).2 = wrap (Zsum (tripleMass G) (nodes G))
  ∧ (∀ i, 0 ≤ i < upperNodeIdBound G →
       (prefixWeights G).1 !! Z.to_nat i
       = Some (if hasNode G i then wrap (cumulativeMass G i) else 0)).
Proof.
  destruct (prefixWeights_at G) as (Hlen & Hsum & Hin & Hout).
  split; [done|]. split; [done|].
  intros i Hi.
  destruct (lookup_lt_is_Some_2 (prefixWeights G).1 (Z.to_nat i)) as [x Hx]; [lia|].
  rewrite Hx. f_equal.
  destruct (hasNode G i) eqn:Ei.
  - specialize (Hin i). unfold vget in Hin. rewrite Hx in Hin.
    apply Hin, elem_of_nodes. by split.
  - specialize (Hout i). unfold vget in Hout. rewrite Hx in Hout.
    apply Hout; [lia|]. rewrite elem_of_nodes. intros [_ E]. congruence.
Qed.

Lemma tripleMass_nonneg G v : 0 ≤ tripleMass G v.
Proof. unfold tripleMass, mul64. apply wrap_fits. Qed.

Lemma cumulativeMass_mono G i j :
  i ≤ j → 0 ≤ cumulativeMass G i ≤ cumulativeMass G j.
Proof.
  intros Hij. unfold cumulativeMass.
  induction (nodes G) as [|v l IH]; [done|].
  rewrite !filter_cons. pose proof (tripleMass_nonneg G v).
  repeat case_decide; simpl; lia.
Qed.

Lemma cumulativeMass_le_total G i :
  cumulativeMass G i ≤ Zsum (tripleMass G) (nodes G).
Proof.
  unfold cumulativeMass.
  induction (nodes G) as [|v l IH]; [done|].
  rewrite filter_cons. pose proof (tripleMass_nonneg G v).
  case_decide; simpl; lia.
Qed.

Lemma cumulativeMass_last G i :
  upperNodeIdBound G - 1 ≤ i → cumulativeMass G i = Zsum (tripleMass G) (nodes G).
Proof.
  intros Hi. unfold cumulativeMass. f_equal.
  pose proof (λ v, proj1 (elem_of_nodes G v)) as Hn.
  induction (nodes G) as [|v l IH]; [done|].
  rewrite filter_cons_True.
  - f_equal. apply IH. intros; apply Hn; set_solver.
  - assert (v ∈ v :: l) as Hv by set_solver. specialize (Hn v Hv). lia.
Qed.

(** X2.  When no id below the bound is deleted and the total mass fits in
    64 bits, the vector [weight] is the prefix sum the search needs: slot [i]
    holds the cumulative mass up to [i], the slots are non-decreasing, and
    the last slot holds [psum], the total mass. *)
Theorem prefixWeights_dense G :
  (∀ i, 0 ≤ i < upperNodeIdBound G → i ∈ nodes G) →
  Zsum (tripleMass G) (nodes G) < 2 ^ 64 →
  (∀ i, 0 ≤ i < upperNodeIdBound G →
        vget 0 (prefixWeights G).1 i = cumulativeMass G i)
  ∧ (∀ i j, 0 ≤ i ≤ j → j < upperNodeIdBound G →
            vget 0 (prefixWeights G).1 i ≤ vget 0 (prefixWeights G).1 j)
  ∧ (0 < upperNodeIdBound G →
     vget 0 (prefixWeights G).1 (upperNodeIdBound G - 1) = (prefixWeights G).2)
  ∧ (prefixWeights G).2 = Zsum (tripleMass G) (nodes G).
Proof.
  intros Hdense Hfit.
  destruct (prefixWeights_at G) as (_ & Hsum & Hin & _).
  assert (∀ i, 0 ≤ i < upperNodeIdBound G →
               vget 0 (prefixWeights G).1 i = cumulativeMass G i) as Hslot.
  { intros i Hi. rewrite Hin by (by apply Hdense).
    apply wrap_small. unfold fits.
    pose proof (cumulativeMass_mono G i i). pose proof (cumulativeMass_le_total G i).
    lia. }
  assert ((prefixWeights G).2 = Zsum (tripleMass G) (nodes G)) as Htotal.
  { rewrite Hsum. apply wrap_small. unfold fits. split; [|done].
    apply Zsum_nonneg. intros; apply tripleMass_nonneg. }
  split; [done|]. split; [|split; [|done]].
  - intros i j Hij Hj. rewrite !Hslot by lia.
    pose proof (cumulativeMass_mono G i j). lia.
  - intros Hz. rewrite Hslot by lia. rewrite Htotal. by apply cumulativeMass_last.
Qed.

Lemma prefixWeights_dense_witness :
  vget 0 (prefixWeights triangleGraph).1 (upperNodeIdBound triangleGraph - 1)
  = (prefixWeights triangleGraph).2.
Proof.
  refine (proj1 (proj2 (proj2 (prefixWeights_dense triangleGraph _ _))) _).
  - intros i Hi.
    assert (i = 0 ∨ i = 1 ∨ i = 2) as [-> | [-> | ->]]
      by (unfold upperNodeIdBound in Hi; simpl in Hi; lia); by_eval.
  - by_eval.
  - by_eval.
Defined.

(** ** The weight vector of approxGlobal *)

(** C3 at a graph with a deleted id.  In the triangle on the ids 0, 2, 3
    with id 1 deleted, the slot 1 of [weight] keeps its initial 0: it is not
    the cumulative sum 2 of the existing ids up to 1, and the vector
    [2; 0; 4; 6] decreases from slot 0 to slot 1.  The search then never
    selects node 0: the draw 0 ends on the deleted id 1 and the draw 1, which
    lies in the range of node 0, ends on node 2. *)
Theorem prefixWeights_deleted_id :
  prefixWeights holeGraph = ([2; 0; 4; 6], 6)
  ∧ hasNode holeGraph 1 = false
  ∧ cumulativeMass holeGraph 1 = 2
  ∧ vget 0 (prefixWeights holeGraph).1 1 = 0
  ∧ vget 0 (prefixWeights holeGraph).1 1 < vget 0 (prefixWeights holeGraph).1 0
  ∧ ¬ StronglySorted Z.le (prefixWeights holeGraph).1
  ∧ binarySearch 4 (prefixWeights holeGraph).1 0 0 4 = Some 1
  ∧ binarySearch 4 (prefixWeights holeGraph).1 1 0 4 = Some 2.
Proof. repeat split; try reflexivity; by_eval. Qed.

(** ** The binary search of approxGlobal *)

Lemma StronglySorted_lookup_le (l : list Z) i j x y :
  StronglySorted Z.le l → (i ≤ j)%nat → l !! i = Some x → l !! j = Some y → x ≤ y.
Proof.
  intros Hs. revert i j. induction Hs as [|a l Hs IH Ha]; intros i j Hij Hi Hj.
  { by rewrite lookup_nil in Hi. }
  destruct i as [|i], j as [|j]; simpl in *; simplify_eq; try lia.
  - rewrite Forall_forall in Ha. apply Ha. by eapply list_elem_of_lookup_2.
  - apply (IH i j); [lia|done..].
Qed.

Lemma sorted_vget (weight : list Z) i j :
  StronglySorted Z.le weight → 0 ≤ i ≤ j → j < Z.of_nat (length weight) →
  vget 0 weight i ≤ vget 0 weight j.
Proof.
  intros Hs Hij Hj. unfold vget.
  destruct (lookup_lt_is_Some_2 weight (Z.to_nat i)) as [x Hx]; [lia|].
  destruct (lookup_lt_is_Some_2 weight (Z.to_nat j)) as [y Hy]; [lia|].
  rewrite Hx, Hy. simpl.
  apply (StronglySorted_lookup_le weight (Z.to_nat i) (Z.to_nat j)); [done|lia|done..].
Qed.

Lemma binarySearch_done fuel weight r low : binarySearch fuel weight r low low = Some low.
Proof. destruct fuel; simpl; by rewrite bool_decide_eq_false_2 by lia. Qed.

Lemma middle_eq low high :
  0 ≤ low → low < high → high < 2 ^ 63 →
  add64 low high `div` 2 = (low + high) `div` 2
  ∧ low ≤ (low + high) `div` 2 < high.
Proof.
  intros. unfold add64. rewrite wrap_small by (unfold fits; lia).
  split; [done|]. split.
  - apply Z.div_le_lower_bound; lia.
  - apply Z.div_lt_upper_bound; lia.
Qed.

Lemma binarySearch_invariant fuel (weight : list Z) r low high :
  let z := Z.of_nat (length weight) in
  z < 2 ^ 63 → StronglySorted Z.le weight →
  0 ≤ low ≤ high → high ≤ z → (Z.to_nat (high - low) ≤ fuel)%nat →
  (∀ j, 0 ≤ j < low → vget 0 weight j < r) →
  (∀ j, high ≤ j < z → r < vget 0 weight j) →
  ∃ v, binarySearch fuel weight r low high = Some v ∧ 0 ≤ v ≤ z ∧
       ((v < z ∧ vget 0 weight v = r)
        ∨ ((∀ j, 0 ≤ j < v → vget 0 weight j < r)
           ∧ (∀ j, v ≤ j < z → r < vget 0 weight j))).
Proof.
  intros z Hz Hs. revert low high.
  induction fuel as [|fuel IH]; intros low high Hlow Hhigh Hfuel Hbelow Habove.
  - assert (low = high) as -> by lia. rewrite binarySearch_done.
    exists high. split; [done|]. split; [lia|]. by right.
  - cbn [binarySearch]. case_bool_decide as Hlt.
    2:{ assert (low = high) as -> by lia.
        exists high. split; [done|]. split; [lia|]. by right. }
    destruct (middle_eq low high) as [-> Hm]; [lia..|].
    set (middle := (low + high) `div` 2) in *.
    repeat case_bool_decide.
    + unfold add64. rewrite (wrap_small (middle + 1)) by (unfold fits; lia).
      apply IH; [lia..| |done].
      intros j Hj.
      pose proof (sorted_vget weight j middle Hs). lia.
    + apply IH; [lia..|done|].
      intros j Hj.
      pose proof (sorted_vget weight middle j Hs). lia.
    + rewrite binarySearch_done. exists middle.
      split; [done|]. split; [lia|]. left. lia.
Qed.

(** C4.  On a non-decreasing vector [weight] of [z] entries ([z < 2^63]) and
    for [0 <= r < weight[z - 1]], the binary search ends on an index [v] in
    [0, z) with [r <= weight[v]]; either [weight[v] = r], or every index
    below [v] holds a value below [r], so that [v] is the least index whose
    value is at least [r]. *)
Theorem binarySearch_finds (weight : list Z) (r : Z) :
  let z := Z.of_nat (length weight) in
  z < 2 ^ 63 → StronglySorted Z.le weight →
  0 ≤ r < vget 0 weight (z - 1) →
  ∃ v, binarySearch (Z.to_nat z) weight r 0 z = Some v
       ∧ 0 ≤ v < z
       ∧ r ≤ vget 0 weight v
       ∧ (vget 0 weight v = r ∨ ∀ j, 0 ≤ j < v → vget 0 weight j < r).
Proof.
  intros z Hz Hs Hr.
  assert (0 < z) as Hpos.
  { destruct weight; [|unfold z; simpl; lia]. unfold vget in Hr. simpl in Hr. lia. }
  destruct (binarySearch_invariant (Z.to_nat z) weight r 0 z)
    as (v & Hv & Hrange & Hcase); try done; try lia.
  exists v. split; [done|].
  destruct Hcase as [[Hlt Heq]|[Hbelow Habove]].
  - split; [lia|]. split; [lia|]. by left.
  - assert (v < z) as Hlt.
    { destruct (decide (v < z)); [done|].
      specialize (Hbelow (z - 1)). lia. }
    split; [lia|]. split; [|by right].
    specialize (Habove v). lia.
Qed.

Lemma binarySearch_finds_witness :
  ∃ v, binarySearch (Z.to_nat 3) [2; 4; 6] 3 0 3 = Some v
       ∧ 0 ≤ v < 3
       ∧ 3 ≤ vget 0 [2; 4; 6] v
       ∧ (vget 0 [2; 4; 6] v = 3 ∨ ∀ j, 0 ≤ j < v → vget 0 [2; 4; 6] j < 3).
Proof.
  apply (binarySearch_finds [2; 4; 6] 3).
  - by_eval.
  - by_eval.
  - by_eval.
Defined.

Example binarySearch_least : binarySearch 3 [2; 4; 6] 3 0 3 = Some 1.
Proof. reflexivity. Qed.

Example binarySearch_tie : binarySearch 3 [2; 2; 2; 6; 6] 2 0 5 = Some 2.
Proof. reflexivity. Qed.

(** ** The search ends on every vector *)

(** X3.  Whatever the vector holds, sorted or not, [high - low] iterations
    are enough for the search, and the index it returns lies between the
    bounds it was started with. *)
Theorem binarySearch_total fuel (weight : list Z) r low high :
  0 ≤ low ≤ high → high < 2 ^ 63 → (Z.to_nat (high - low) ≤ fuel)%nat →
  ∃ v, binarySearch fuel weight r low high = Some v ∧ low ≤ v ≤ high.
Proof.
  revert low high. induction fuel as [|fuel IH]; intros low high Hlow Hhigh Hfuel.
  - assert (low = high) as -> by lia. rewrite binarySearch_done. exists high. split; [done|lia].
  - cbn [binarySearch]. case_bool_decide as Hlt; [|exists low; split; [done|lia]].
    destruct (middle_eq low high) as [-> Hm]; [lia..|].
    set (middle := (low + high) `div` 2) in *.
    repeat case_bool_decide.
    + unfold add64. rewrite (wrap_small (middle + 1)) by (unfold fits; lia).
      destruct (IH (middle + 1) high) as (v & -> & Hv); [lia..|]. exists v. split; [done|lia].
    + destruct (IH low middle) as (v & -> & Hv); [lia..|]. exists v. split; [done|lia].
    + rewrite binarySearch_done. exists middle. split; [done|lia].
Qed.

Lemma binarySearch_total_witness :
  ∃ v, binarySearch 4 [2; 0; 4; 6] 1 0 4 = Some v ∧ 0 ≤ v ≤ 4.
Proof. apply (binarySearch_total 4 [2; 0; 4; 6] 1 0 4); by_eval. Defined.

(** ** The redraw loop *)

Lemma redraw_exit fuel rnd G v u w i :
  u ≠ w → redraw fuel rnd G v u w i = Done w i.
Proof. intros Hne. destruct fuel; simpl; by rewrite bool_decide_eq_false_2. Qed.

Lemma redraw_step fuel rnd G v u w i :
  randomNeighbor rnd G v i = Done w (S i) →
  redraw (S fuel) rnd G v u u i = redraw fuel rnd G v u w (S i).
Proof.
  intros Hw. cbn [redraw]. rewrite bool_decide_eq_true_2 by done.
  unfold bind. by rewrite Hw.
Qed.

(** As long as the draws return [u], the loop goes on. *)
Lemma redraw_same fuel rnd G v u (s n : nat) :
  (∀ i, (i < n)%nat → randomNeighbor rnd G v (s + i)%nat = Done u (S (s + i)%nat)) →
  (fuel ≤ n)%nat → redraw fuel rnd G v u u s = OutOfFuel.
Proof.
  revert s n. induction fuel as [|fuel IH]; intros s n Hsame Hn.
  - simpl. by rewrite bool_decide_eq_true_2.
  - destruct n as [|n]; [lia|].
    rewrite (redraw_step fuel rnd G v u u s).
    + apply (IH (S s) n); [|lia].
      intros i Hi. specialize (Hsame (S i)).
      replace (s + S i)%nat with (S s + i)%nat in Hsame by lia.
      apply Hsame. lia.
    + specialize (Hsame 0%nat). rewrite Nat.add_0_r in Hsame. apply Hsame. lia.
Qed.

Lemma redraw_until fuel rnd G v u w (s n : nat) :
  (∀ i, (i < n)%nat → randomNeighbor rnd G v (s + i)%nat = Done u (S (s + i)%nat)) →
  w ≠ u → randomNeighbor rnd G v (s + n)%nat = Done w (S (s + n)%nat) →
  (n < fuel)%nat → redraw fuel rnd G v u u s = Done w (S (s + n)%nat).
Proof.
  revert s fuel. induction n as [|n IH]; intros s fuel Hsame Hne Hw Hn.
  - destruct fuel as [|fuel]; [lia|]. rewrite Nat.add_0_r in *.
    rewrite (redraw_step fuel rnd G v u w s) by done.
    by apply redraw_exit.
  - destruct fuel as [|fuel]; [lia|].
    rewrite (redraw_step fuel rnd G v u u s).
    + replace (s + S n)%nat with (S s + n)%nat in * by lia.
      apply IH; [|done|done|lia].
      intros i Hi. specialize (Hsame (S i)).
      replace (s + S i)%nat with (S s + i)%nat in Hsame by lia.
      apply Hsame. lia.
    + specialize (Hsame 0%nat). rewrite Nat.add_0_r in Hsame. apply Hsame. lia.
Qed.

(** C7, as amended.  The redraw loop has no bound and signals no failure:
    entered with [w = u], it is still running after [n] redraws when the
    first [n] draws return [u], whatever [n] is, and it ends with the first
    draw that differs from [u]. *)
Theorem redraw_unbounded rnd G v u (s n : nat) :
  (∀ i, (i < n)%nat → randomNeighbor rnd G v (s + i)%nat = Done u (S (s + i)%nat)) →
  (∀ fuel, (fuel ≤ n)%nat → redraw fuel rnd G v u u s = OutOfFuel)
  ∧ (∀ w fuel, w ≠ u → randomNeighbor rnd G v (s + n)%nat = Done w (S (s + n)%nat) →
               (n < fuel)%nat → redraw fuel rnd G v u u s = Done w (S (s + n)%nat)).
Proof.
  intros Hsame. split.
  - intros fuel Hn. by apply (redraw_same fuel rnd G v u s n).
  - intros w fuel Hne Hw Hn. by apply redraw_until.
Qed.

Lemma redraw_unbounded_witness :
  redraw 3 threeThenOther pathGraph 0 1 1 0%nat = OutOfFuel
  ∧ redraw 4 threeThenOther pathGraph 0 1 1 0%nat = Done 2 4%nat.
Proof.
  assert (∀ i, (i < 3)%nat →
               randomNeighbor threeThenOther pathGraph 0 (0 + i)%nat
               = Done 1 (S (0 + i))) as Hsame.
  { intros i Hi. unfold randomNeighbor, threeThenOther.
    by rewrite bool_decide_eq_true_2 by lia. }
  split.
  - exact (proj1 (redraw_unbounded threeThenOther pathGraph 0 1 0%nat 3%nat Hsame)
                 3%nat (le_n 3)).
  - apply (proj2 (redraw_unbounded threeThenOther pathGraph 0 1 0%nat 3%nat Hsame)
                 2 4%nat); [done|done|lia].
Defined.

Lemma closedPair_same fuel rnd G v u triangles (s : nat) :
  (∀ i, randomNeighbor rnd G v (s + i)%nat = Done u (S (s + i))) →
  closedPair fuel rnd G v triangles s = OutOfFuel.
Proof.
  intros Hsame. unfold closedPair, bind.
  pose proof (Hsame 0%nat) as H0. rewrite Nat.add_0_r in H0. rewrite H0.
  pose proof (Hsame 1%nat) as H1. replace (s + 1)%nat with (S s) in H1 by lia.
  rewrite H1.
  rewrite (redraw_same fuel rnd G v u (S (S s)) fuel); [done| |done].
  intros i _. specialize (Hsame (2 + i)%nat).
  by replace (s + (2 + i))%nat with (S (S s) + i)%nat in Hsame by lia.
Qed.

(** C7, as stated, fails: at node 0 of the path 1 - 0 - 2, whose degree is 2,
    with draws that always return the neighbour 1, neither estimator ever
    leaves the redraw loop, whatever the number of iterations allowed. *)
Lemma redraw_runs_forever :
  ¬ (∃ fuel, approxAvgLocal fuel (λ _, 0) pathGraph 1 ≠ OutOfFuel)
  ∧ ¬ (∃ fuel, approxGlobal fuel (λ _, 0) pathGraph 1 ≠ OutOfFuel).
Proof.
  split; intros [fuel H]; apply H; clear H.
  - destruct fuel as [|fuel]; [reflexivity|].
    unfold approxAvgLocal, bind. cbn [forTrials].
    rewrite bool_decide_eq_true_2 by lia. unfold bind, approxAvgLocal_body, bind.
    change (randomNode (λ _, 0) pathGraph 0%nat) with (Done (A:=Z) 0 1%nat).
    cbv iota beta.
    rewrite bool_decide_eq_false_2 by by_eval.
    by rewrite (closedPair_same fuel (λ _, 0) pathGraph 0 1).
  - destruct fuel as [|fuel]; [reflexivity|].
    unfold approxGlobal.
    change (prefixWeights pathGraph) with ([2; 2; 2], 2). cbv iota beta.
    unfold bind. cbn [forTrials].
    rewrite bool_decide_eq_true_2 by lia. unfold bind, approxGlobal_body, bind.
    change (integer (λ _, 0) (sub64 2 1) 0%nat) with (Done (A:=Z) 0 1%nat).
    cbv iota beta.
    change (binarySearch (Z.to_nat (upperNodeIdBound pathGraph)) [2; 2; 2] 0 0
              (upperNodeIdBound pathGraph)) with (Some 0).
    cbv iota beta.
    rewrite bool_decide_eq_false_2 by by_eval.
    rewrite bool_decide_eq_false_2 by by_eval.
    by rewrite (closedPair_same fuel (λ _, 0) pathGraph 0 1).
Qed.

(** ** The trial loop *)

Lemma dadd_count_1 h : dadd (of_count h) (Finite 1%Qc) = of_count (h + 1).
Proof. unfold of_count. simpl. by rewrite Z2Qc_inj_add, Z2Qc_inj_1. Qed.

Example approxAvgLocal_triangle :
  approxAvgLocal 10 countingDraws triangleGraph 3 = Done (Finite 1%Qc) 9%nat.
Proof. by_eval. Qed.

Example approxGlobal_path :
  approxGlobal 10 countingDraws pathGraph 2 = Done (Finite 0%Qc) 6%nat.
Proof. by_eval. Qed.

(** ** approxGlobal on a graph without triples *)

Lemma mass_low_degree d : 0 ≤ d < 2 → mul64 d (sub64 d 1) = 0.
Proof. intros Hd. assert (d = 0 ∨ d = 1) as [-> | ->] by lia; reflexivity. Qed.

Lemma prefixWeights_zero_mass G :
  (∀ u, degree G u < 2) → (prefixWeights G).2 = 0.
Proof.
  intros Hd. unfold prefixWeights.
  generalize (replicate (Z.to_nat (upperNodeIdBound G)) 0).
  induction (nodes G) as [|v l IH]; intros weight; [done|].
  cbn [foldl prefixStep]. rewrite mass_low_degree.
  - apply IH.
  - specialize (Hd v). unfold degree in *. lia.
Qed.

Lemma forTrials_none_counted fuel body trials triangles i :
  0 < trials →
  (∀ fuel k t i kt j, body fuel k t i = Done kt j → kt = (sub64 k 1, t)) →
  forTrials fuel body trials 0 triangles i = OutOfFuel
  ∨ forTrials fuel body trials 0 triangles i = Undefined.
Proof.
  intros Htrials Hbody. revert i.
  induction fuel as [|fuel IH]; intros i; cbn [forTrials];
    rewrite bool_decide_eq_true_2 by done; [by left|].
  unfold bind. destruct (body fuel 0 triangles i) as [kt j| |] eqn:Eb; auto.
  rewrite (Hbody _ _ _ _ _ _ Eb). simpl.
  rewrite add64_sub64_1 by (unfold fits; lia). apply IH.
Qed.

Lemma approxGlobal_body_discards rnd G weight psum :
  (∀ u, degree G u < 2) →
  ∀ fuel k t i kt j,
    approxGlobal_body rnd G weight psum fuel k t i = Done kt j → kt = (sub64 k 1, t).
Proof.
  intros Hd fuel k t i kt j.
  unfold approxGlobal_body, bind, ret, integer, diverge, undefined.
  destruct (binarySearch _ _ _ _ _) as [v|]; try done.
  case_bool_decide; try done.
  rewrite bool_decide_eq_true_2 by apply Hd. by intros [= <- <-].
Qed.

(** C5, as amended.  When no id has degree 2 or more, the total mass [psum]
    is 0 and, for a positive trial count, [approxGlobal] neither returns a
    value nor signals an error: every trial is discarded without being
    counted, or the search ends on the index [upperNodeIdBound], which is no
    node id; the run does not end, or reads outside the graph. *)
Theorem approxGlobal_zero_mass fuel rnd G trials :
  0 < trials → (∀ u, degree G u < 2) →
  (prefixWeights G).2 = 0
  ∧ (approxGlobal fuel rnd G trials = OutOfFuel
     ∨ approxGlobal fuel rnd G trials = Undefined).
Proof.
  intros Htrials Hd. split; [by apply prefixWeights_zero_mass|].
  unfold approxGlobal. destruct (prefixWeights G) as [weight psum].
  unfold bind.
  destruct (forTrials_none_counted fuel (approxGlobal_body rnd G weight psum)
              trials (Finite 0%Qc) 0%nat Htrials
              (approxGlobal_body_discards rnd G weight psum Hd)) as [-> | ->]; auto.
Qed.

Lemma degree_edgeGraph u : degree edgeGraph u < 2.
Proof.
  unfold degree. destruct (edgesOf_lookup edgeGraph u) as [->|[Hu Hl]]; [simpl; lia|].
  apply list_elem_of_lookup_2 in Hl. simpl in Hl.
  apply elem_of_cons in Hl as [->|Hl]; [simpl; lia|].
  apply elem_of_cons in Hl as [->|Hl]; [simpl; lia|]. set_solver.
Qed.

Lemma approxGlobal_zero_mass_witness :
  (prefixWeights edgeGraph).2 = 0
  ∧ (approxGlobal 5 countingDraws edgeGraph 1 = OutOfFuel
     ∨ approxGlobal 5 countingDraws edgeGraph 1 = Undefined).
Proof.
  apply (approxGlobal_zero_mass 5 countingDraws edgeGraph 1); [lia|].
  exact degree_edgeGraph.
Defined.

Example approxGlobal_edge_zero : approxGlobal 5 (λ _, 0) edgeGraph 1 = OutOfFuel.
Proof. reflexivity. Qed.

Example approxGlobal_edge_counting : approxGlobal 5 countingDraws edgeGraph 1 = Undefined.
Proof. reflexivity. Qed.

Lemma forTrials_discard_forever fuel body trials triangles i :
  0 < trials →
  (∀ fuel k t i, body fuel k t i = Done (sub64 k 1, t) (S i)) →
  forTrials fuel body trials 0 triangles i = OutOfFuel.
Proof.
  intros Htrials Hbody. revert i.
  induction fuel as [|fuel IH]; intros i; cbn [forTrials];
    rewrite bool_decide_eq_true_2 by done; [done|].
  unfold bind. rewrite Hbody. simpl.
  rewrite add64_sub64_1 by (unfold fits; lia). apply IH.
Qed.

(** C5, as stated, fails: on the graph of one edge, where every degree is 1,
    with one trial and draws that are all 0, no error is raised; every trial
    selects node 1, is discarded and leaves [k] at 0, so the loop is still
    running after any number of iterations. *)
Lemma approxGlobal_zero_mass_loops :
  ¬ (∃ fuel, approxGlobal fuel (λ _, 0) edgeGraph 1 ≠ OutOfFuel).
Proof.
  intros [fuel H]. apply H. clear H.
  unfold approxGlobal. change (prefixWeights edgeGraph) with ([0; 0], 0).
  cbv iota beta. unfold bind.
  rewrite forTrials_discard_forever; [done|lia|].
  intros fuel' k t i. reflexivity.
Qed.

(** ** More fuel does not change the outcome of a run that has ended *)

Lemma redraw_more_fuel fuel fuel' rnd G v u w i :
  (fuel ≤ fuel')%nat →
  redraw fuel rnd G v u w i ≠ OutOfFuel →
  redraw fuel' rnd G v u w i = redraw fuel rnd G v u w i.
Proof.
  revert fuel' w i. induction fuel as [|fuel IH]; intros fuel' w i Hle.
  - simpl. case_bool_decide as Huw; [done|].
    intros _. by rewrite redraw_exit.
  - destruct fuel' as [|fuel']; [lia|]. cbn [redraw].
    case_bool_decide; [|done]. unfold bind.
    destruct (randomNeighbor rnd G v i) as [w' i'| |]; [|done..].
    apply IH. lia.
Qed.

Lemma closedPair_more_fuel fuel fuel' rnd G v triangles i :
  (fuel ≤ fuel')%nat →
  closedPair fuel rnd G v triangles i ≠ OutOfFuel →
  closedPair fuel' rnd G v triangles i = closedPair fuel rnd G v triangles i.
Proof.
  intros Hle. unfold closedPair, bind.
  destruct (randomNeighbor rnd G v i) as [u i1| |]; [|done..].
  destruct (randomNeighbor rnd G v i1) as [w i2| |]; [|done..].
  intros Hne. rewrite (redraw_more_fuel fuel fuel'); [done|done|].
  intros E. by rewrite E in Hne.
Qed.

Lemma forTrials_more_fuel body fuel fuel' trials k triangles i :
  (∀ fuel fuel' k t i, (fuel ≤ fuel')%nat → body fuel k t i ≠ OutOfFuel →
                       body fuel' k t i = body fuel k t i) →
  (fuel ≤ fuel')%nat →
  forTrials fuel body trials k triangles i ≠ OutOfFuel →
  forTrials fuel' body trials k triangles i = forTrials fuel body trials k triangles i.
Proof.
  intros Hbody. revert fuel' k triangles i.
  induction fuel as [|fuel IH]; intros fuel' k triangles i Hle.
  - simpl. case_bool_decide; [done|]. intros _.
    destruct fuel'; simpl; by rewrite bool_decide_eq_false_2.
  - destruct fuel' as [|fuel']; [lia|]. cbn [forTrials].
    case_bool_decide; [|done]. unfold bind. intros Hne.
    rewrite (Hbody fuel fuel') by (try lia; intros E; by rewrite E in Hne).
    destruct (body fuel k triangles i) as [kt j| |]; [|done..].
    apply IH; [lia|done].
Qed.

Lemma approxAvgLocal_body_more_fuel rnd G fuel fuel' k t i :
  (fuel ≤ fuel')%nat → approxAvgLocal_body rnd G fuel k t i ≠ OutOfFuel →
  approxAvgLocal_body rnd G fuel' k t i = approxAvgLocal_body rnd G fuel k t i.
Proof.
  intros Hle. unfold approxAvgLocal_body, bind.
  destruct (randomNode rnd G i) as [v i1| |]; [|done..].
  case_bool_decide; [done|]. intros Hne.
  rewrite (closedPair_more_fuel fuel fuel'); [done|done|].
  intros E. by rewrite E in Hne.
Qed.

Lemma approxGlobal_body_more_fuel rnd G weight psum fuel fuel' k t i :
  (fuel ≤ fuel')%nat → approxGlobal_body rnd G weight psum fuel k t i ≠ OutOfFuel →
  approxGlobal_body rnd G weight psum fuel' k t i
  = approxGlobal_body rnd G weight psum fuel k t i.
Proof.
  intros Hle. unfold approxGlobal_body, bind, integer.
  destruct (binarySearch _ _ _ _ _) as [v|]; [|done].
  repeat case_bool_decide; try done. intros Hne.
  rewrite (closedPair_more_fuel fuel fuel'); [done|done|].
  intros E. by rewrite E in Hne.
Qed.

(** A run of an estimator that has ended within [fuel] iterations ends the
    same way with any larger allowance. *)
Lemma approx_more_fuel fuel fuel' rnd G trials :
  (fuel ≤ fuel')%nat →
  (approxAvgLocal fuel rnd G trials ≠ OutOfFuel →
   approxAvgLocal fuel' rnd G trials = approxAvgLocal fuel rnd G trials)
  ∧ (approxGlobal fuel rnd G trials ≠ OutOfFuel →
     approxGlobal fuel' rnd G trials = approxGlobal fuel rnd G trials).
Proof.
  intros Hle. split.
  - unfold approxAvgLocal, bind. intros Hne.
    rewrite (forTrials_more_fuel _ fuel fuel');
      [done|apply approxAvgLocal_body_more_fuel|done|].
    intros E. by rewrite E in Hne.
  - unfold approxGlobal. destruct (prefixWeights G) as [weight psum].
    unfold bind. intros Hne.
    rewrite (forTrials_more_fuel _ fuel fuel');
      [done|apply approxGlobal_body_more_fuel|done|].
    intros E. by rewrite E in Hne.
Qed.

(** * Further properties of the five operations *)

(** ** exactLocal: the order of the iterations does not matter *)

Lemma writeSlots_Permutation {A : Type} (f : Z → A) (init : list A) o1 o2 :
  o1 ≡ₚ o2 → Forall (λ x, 0 ≤ x < Z.of_nat (length init)) o1 →
  writeSlots f init o1 = writeSlots f init o2.
Proof.
  intros Hp Hr. apply list_eq. intros i.
  assert (Forall (λ x, 0 ≤ x) o1) as Hpos1
    by (eapply Forall_impl; [exact Hr|]; simpl; intros; lia).
  assert (Forall (λ x, 0 ≤ x) o2) as Hpos2 by (by rewrite <- Hp).
  destruct (decide (Z.of_nat i ∈ o1)) as [Hin|Hout].
  - rewrite Forall_forall in Hr. pose proof (Hr _ Hin) as Hi. simpl in Hi.
    rewrite <- (Nat2Z.id i).
    rewrite !writeSlots_lookup; [done|done|lia|by rewrite <- Hp|done|lia|done].
  - rewrite !writeSlots_lookup_other; [done| |].
    + intros x Hx <-. apply Hout. rewrite Hp.
      rewrite Forall_forall in Hpos2. specialize (Hpos2 x Hx). simpl in Hpos2.
      by rewrite Z2Nat.id.
    + intros x Hx <-. apply Hout.
      rewrite Forall_forall in Hpos1. specialize (Hpos1 x Hx). simpl in Hpos1.
      by rewrite Z2Nat.id.
Qed.

(** X4.  Whatever the order in which the parallel loop of [exactLocal] runs
    its iterations, the vector is the same; it has one slot per id below
    the bound and the slot of a deleted id holds [0.0]. *)
Theorem exactLocal_any_order G order :
  valid_order G order →
  exactLocal_sched order G = exactLocal G
  ∧ length (exactLocal_sched order G) = Z.to_nat (upperNodeIdBound G)
  ∧ (∀ i, 0 ≤ i < upperNodeIdBound G → hasNode G i = false →
          exactLocal_sched order G !! Z.to_nat i = Some (Finite 0%Qc)).
Proof.
  unfold valid_order. intros Hp.
  assert (exactLocal_sched order G = exactLocal G) as Heq.
  { unfold exactLocal, exactLocal_sched. apply writeSlots_Permutation; [done|].
    rewrite Hp, length_replicate. apply Forall_forall.
    intros x Hx%elem_of_nodes. lia. }
  split; [done|]. rewrite Heq. split.
  - unfold exactLocal, exactLocal_sched.
    by rewrite length_writeSlots, length_replicate.
  - intros i Hi Hno. unfold exactLocal, exactLocal_sched.
    rewrite writeSlots_lookup_other.
    + apply lookup_replicate. split; [done|lia].
    + intros x Hx Heqx. apply elem_of_nodes in Hx as [Hr Hex].
      replace i with x in Hno by lia. congruence.
Qed.

Lemma exactLocal_any_order_witness :
  exactLocal_sched [2; 0; 1] triangleGraph = exactLocal triangleGraph.
Proof.
  refine (proj1 (exactLocal_any_order triangleGraph [2; 0; 1] _)).
  unfold valid_order. by_eval.
Defined.

(** ** exactLocal at the two extremes *)

Lemma length_filter_ne (l : list Z) v :
  NoDup l → v ∈ l → S (length (filter (λ w, w ≠ v) l)) = length l.
Proof.
  induction l as [|a l IH]; intros Hnd Hv; [set_solver|].
  apply NoDup_cons in Hnd as [Ha Hnd]. rewrite filter_cons.
  destruct (decide (a = v)) as [->|Hne].
  - rewrite decide_False by tauto. simpl. f_equal.
    replace (filter (λ w, w ≠ v) l) with l; [done|].
    clear IH Hnd Hv. induction l as [|b l IHl]; [done|].
    rewrite filter_cons_True by set_solver. f_equal. apply IHl. set_solver.
  - rewrite decide_True by done. simpl. f_equal. apply IH; [done|set_solver].
Qed.

Lemma filter_none {A : Type} (P : A → Prop) `{!∀ x, Decision (P x)} (l : list A) :
  (∀ x, x ∈ l → ¬ P x) → filter P l = [].
Proof.
  induction l as [|a l IH]; intros Hno; [done|].
  rewrite filter_cons_False by (apply Hno; set_solver).
  apply IH. intros; apply Hno; set_solver.
Qed.

Lemma Zsum_const {A : Type} (f : A → Z) l c :
  (∀ x, x ∈ l → f x = c) → Zsum f l = Z.of_nat (length l) * c.
Proof.
  induction l as [|x l IH]; intros H; simpl; [lia|].
  rewrite (H x) by set_solver. rewrite IH by (intros; apply H; set_solver). lia.
Qed.

Lemma Finite_quotient_self n : n ≠ 0 → (Qc_of_Z n / Qc_of_Z n)%Qc = 1%Qc.
Proof.
  intros Hn. unfold Qcdiv. apply Qcmult_inv_r.
  rewrite <- Z2Qc_inj_0. by intros ?%Z2Qc_inj.
Qed.

Lemma Finite_quotient_zero n : (Qc_of_Z 0 / Qc_of_Z n)%Qc = 0%Qc.
Proof. unfold Qcdiv. by rewrite Z2Qc_inj_0, Qcmult_0_l. Qed.

(** X5.  In a graph without parallel edges and self-loops, at an existing
    node of degree [d] with [2 <= d < 2^32] whose neighbours are pairwise
    adjacent, the entry of [exactLocal] is [1.0]. *)
Theorem exactLocal_clique G u :
  simple G → u ∈ nodes G → 2 ≤ degree G u < 2 ^ 32 → cliqueAt G u →
  countTriangles G u (uNeighbors G u) = degree G u * (degree G u - 1)
  ∧ exactLocal G !! Z.to_nat u = Some (Finite 1%Qc).
Proof.
  intros Hs Hu Hd Hclique.
  assert (countTriangles G u (uNeighbors G u) = degree G u * (degree G u - 1)) as Hc.
  { rewrite countTriangles_eq.
    rewrite (Zsum_const _ _ (degree G u - 1)).
    - apply wrap_small. unfold fits, degree in *. nia.
    - intros v Hv.
      assert (filter (λ w, w ∈ uNeighbors G u) (edgesOf G v)
              ≡ₚ filter (λ w, w ≠ v) (edgesOf G u)) as Hp.
      { apply NoDup_Permutation; [apply NoDup_filter, Hs..|].
        intros w. rewrite !list_elem_of_filter, elem_of_uNeighbors.
        destruct (Hs v) as [_ Hv']. destruct (Hs u) as [_ Hu'].
        split.
        - intros [[Hw _] Hwv]. split; [|done]. intros ->. done.
        - intros [Hne Hw]. split; [split; [done|]|].
          + intros ->. done.
          + apply Hclique; [done|done|congruence]. }
      rewrite Hp. pose proof (length_filter_ne (edgesOf G u) v (proj1 (Hs u)) Hv).
      unfold degree. lia. }
  split; [done|].
  rewrite exactLocal_lookup by done.
  rewrite localCoefficient_high_degree by done. rewrite Hc.
  rewrite Finite_quotient_self; [done|nia].
Qed.

Lemma cliqueAt_triangle : cliqueAt triangleGraph 0.
Proof.
  intros v w Hv Hw Hne. change (edgesOf triangleGraph 0) with [1; 2] in Hv, Hw.
  apply elem_of_cons in Hv as [->|Hv%list_elem_of_singleton];
    apply elem_of_cons in Hw as [->|Hw%list_elem_of_singleton];
    subst; try done; by_eval.
Qed.

Lemma exactLocal_clique_witness :
  countTriangles triangleGraph 0 (uNeighbors triangleGraph 0)
  = degree triangleGraph 0 * (degree triangleGraph 0 - 1)
  ∧ exactLocal triangleGraph !! Z.to_nat 0 = Some (Finite 1%Qc).
Proof.
  apply (exactLocal_clique triangleGraph 0).
  - by apply simpleb_simple.
  - by_eval.
  - by_eval.
  - exact cliqueAt_triangle.
Defined.

(** X6.  At an existing node of degree [d] with [2 <= d < 2^32] none of
    whose neighbours is adjacent to another neighbour, the counter of
    [exactLocal] stays 0 and the entry is [0.0], self-loops and parallel
    edges or not. *)
Theorem exactLocal_no_triangle G u :
  u ∈ nodes G → 2 ≤ degree G u < 2 ^ 32 → independentAt G u →
  countTriangles G u (uNeighbors G u) = 0
  ∧ exactLocal G !! Z.to_nat u = Some (Finite 0%Qc).
Proof.
  intros Hu Hd Hind.
  assert (countTriangles G u (uNeighbors G u) = 0) as Hc.
  { rewrite countTriangles_eq. rewrite (Zsum_const _ _ 0); [by rewrite Z.mul_0_r|].
    intros v Hv.
    rewrite filter_none; [done|]. intros w Hw.
    rewrite elem_of_uNeighbors. intros [Hwu Hne]. apply Hne. by apply (Hind v w). }
  split; [done|].
  rewrite exactLocal_lookup by done.
  rewrite localCoefficient_high_degree by done. rewrite Hc.
  by rewrite Finite_quotient_zero.
Qed.

Lemma independentAt_path : independentAt pathGraph 0.
Proof.
  intros v w Hv Hw Hu. change (edgesOf pathGraph 0) with [1; 2] in Hv, Hu.
  apply elem_of_cons in Hv as [->|Hv%list_elem_of_singleton]; subst.
  - change (edgesOf pathGraph 1) with [0] in Hw. set_solver.
  - change (edgesOf pathGraph 2) with [0] in Hw. set_solver.
Qed.

Lemma exactLocal_no_triangle_witness :
  countTriangles pathGraph 0 (uNeighbors pathGraph 0) = 0
  ∧ exactLocal pathGraph !! Z.to_nat 0 = Some (Finite 0%Qc).
Proof.
  apply (exactLocal_no_triangle pathGraph 0).
  - by_eval.
  - by_eval.
  - exact independentAt_path.
Defined.

(** ** The counters of exactGlobal and of exactLocal *)

Lemma length_filter_or {A : Type} (P Q R : A → Prop)
    `{!∀ x, Decision (P x)} `{!∀ x, Decision (Q x)} `{!∀ x, Decision (R x)}
    (l : list A) :
  (∀ x, P x ↔ Q x ∨ R x) → (∀ x, Q x → R x → False) →
  Z.of_nat (length (filter P l))
  = Z.of_nat (length (filter Q l)) + Z.of_nat (length (filter R l)).
Proof.
  intros Hor Hdisj. induction l as [|x l IH]; [done|].
  rewrite !filter_cons. pose proof (Hor x). pose proof (Hdisj x).
  repeat case_decide; simpl length; try lia; exfalso; tauto.
Qed.

Lemma wrap_add a b : wrap (wrap a + wrap b) = wrap (a + b).
Proof. by rewrite wrap_add_l, wrap_add_r. Qed.

(** X7.  For a node of degree above 1, the counter of [exactGlobal], which
    tests [hasEdge (u, w)], is the counter of [exactLocal], which tests the
    neighbour set without [u], plus, when [u] has a self-loop, the number of
    pairs of an edge [(u, v)] and an edge [(v, u)]; without a self-loop at
    [u] the two counters are equal. *)
Theorem globalTriangles_local_plus_loops G u :
  1 < degree G u →
  globalTriangles G u
  = add64 (countTriangles G u (uNeighbors G u))
          (if bool_decide (u ∈ edgesOf G u)
           then wrap (Zsum (λ v, Z.of_nat (length (filter (λ w, w = u) (edgesOf G v))))
                           (edgesOf G u))
           else 0)
  ∧ (u ∉ edgesOf G u → globalTriangles G u = countTriangles G u (uNeighbors G u)).
Proof.
  intros Hd. rewrite globalTriangles_eq, bool_decide_eq_true_2 by done.
  rewrite countTriangles_eq.
  assert (∀ v, Z.of_nat (length (filter (λ w, w ∈ edgesOf G u) (edgesOf G v)))
               = Z.of_nat (length (filter (λ w, w ∈ uNeighbors G u) (edgesOf G v)))
                 + Z.of_nat (length (filter (λ w, w = u ∧ u ∈ edgesOf G u)
                                            (edgesOf G v)))) as Hsplit.
  { intros v. apply length_filter_or.
    - intros w. rewrite elem_of_uNeighbors.
      destruct (decide (w = u)) as [->|]; tauto.
    - intros w. rewrite elem_of_uNeighbors. tauto. }
  rewrite (Zsum_ext _ _ _ (λ v _, Hsplit v)), Zsum_plus.
  split.
  - case_bool_decide as Hloop.
    + unfold add64. rewrite wrap_add. do 2 f_equal.
      apply Zsum_ext. intros v _. f_equal. apply length_filter_ext. tauto.
    + rewrite (Zsum_const (λ v, Z.of_nat (length (filter (λ w, w = u ∧ u ∈ edgesOf G u)
                                                     (edgesOf G v)))) _ 0).
      * unfold add64. rewrite Z.mul_0_r, !Z.add_0_r.
        symmetry. apply wrap_small, wrap_fits.
      * intros v _. rewrite filter_none; [done|]. tauto.
  - intros Hloop. f_equal.
    rewrite (Zsum_const (λ v, Z.of_nat (length (filter (λ w, w = u ∧ u ∈ edgesOf G u)
                                                   (edgesOf G v)))) _ 0).
    + lia.
    + intros v _. rewrite filter_none; [done|]. tauto.
Qed.

Lemma globalTriangles_local_plus_loops_witness :
  globalTriangles selfLoopGraph 0
  = add64 (countTriangles selfLoopGraph 0 (uNeighbors selfLoopGraph 0))
          (if bool_decide (0 ∈ edgesOf selfLoopGraph 0)
           then wrap (Zsum (λ v, Z.of_nat (length (filter (λ w, w = 0)
                                                          (edgesOf selfLoopGraph v))))
                           (edgesOf selfLoopGraph 0))
           else 0).
Proof.
  refine (proj1 (globalTriangles_local_plus_loops selfLoopGraph 0 _)). by_eval.
Defined.

Example globalTriangles_selfLoop :
  globalTriangles selfLoopGraph 0 = 7
  ∧ countTriangles selfLoopGraph 0 (uNeighbors selfLoopGraph 0) = 4.
Proof. split; reflexivity. Qed.

(** ** exactGlobal: no triples, and the range of the ratio *)

Lemma Zsum_mono {A : Type} (f g : A → Z) l :
  (∀ x, x ∈ l → f x ≤ g x) → Zsum f l ≤ Zsum g l.
Proof.
  induction l as [|x l IH]; intros H; simpl; [done|].
  assert (f x ≤ g x) by (apply H; set_solver).
  assert (Zsum f l ≤ Zsum g l) by (apply IH; intros; apply H; set_solver). lia.
Qed.

Lemma Zsum_pos {A : Type} (f : A → Z) l x :
  (∀ y, y ∈ l → 0 ≤ f y) → x ∈ l → 0 < f x → 0 < Zsum f l.
Proof.
  induction l as [|a l IH]; intros Hnn Hx Hpos; [set_solver|]. simpl.
  assert (0 ≤ f a) by (apply Hnn; set_solver).
  assert (0 ≤ Zsum f l) by (apply Zsum_nonneg; intros; apply Hnn; set_solver).
  apply elem_of_cons in Hx as [->|Hx]; [lia|].
  assert (0 < Zsum f l) by (apply IH; [intros; apply Hnn; set_solver|done..]). lia.
Qed.

Lemma exactGlobal_eq G :
  exactGlobal G
  = ddiv (of_count (Zsum (globalTriangles G) (nodes G)))
         (of_count (Zsum (tripleMass G) (nodes G))).
Proof.
  unfold exactGlobal. apply exactGlobal_sched_eq.
  - unfold valid_order. reflexivity.
  - unfold valid_chunks. simpl. by rewrite app_nil_r.
  - unfold valid_chunks. simpl. by rewrite app_nil_r.
Qed.

Lemma globalTriangles_low_degree G u : degree G u < 2 → globalTriangles G u = 0.
Proof. intros Hd. unfold globalTriangles. by rewrite bool_decide_eq_false_2 by lia. Qed.

Lemma tripleMass_low_degree G u : degree G u < 2 → tripleMass G u = 0.
Proof. intros Hd. apply mass_low_degree. unfold degree in *. lia. Qed.

(** X8.  When no existing node has degree 2 or more (the empty graph
    included) both sums of [exactGlobal] are 0 and the result is the
    not-a-number value of [0.0 / 0.0]. *)
Theorem exactGlobal_no_triples G :
  (∀ u, u ∈ nodes G → degree G u < 2) → exactGlobal G = NaN.
Proof.
  intros Hd. rewrite exactGlobal_eq.
  rewrite (Zsum_const (globalTriangles G) _ 0)
    by (intros; apply globalTriangles_low_degree; auto).
  rewrite (Zsum_const (tripleMass G) _ 0)
    by (intros; apply tripleMass_low_degree; auto).
  by rewrite Z.mul_0_r.
Qed.

Lemma exactGlobal_no_triples_witness : exactGlobal edgeGraph = NaN.
Proof. apply exactGlobal_no_triples. intros u _. apply degree_edgeGraph. Defined.

Lemma globalTriangles_le_mass G u :
  simple G → degree G u < 2 ^ 32 → 0 ≤ globalTriangles G u ≤ tripleMass G u.
Proof.
  intros Hs Hd. destruct (decide (degree G u < 2)) as [Hlow|Hhigh].
  - rewrite globalTriangles_low_degree, tripleMass_low_degree by done. lia.
  - unfold tripleMass. rewrite mul64_pred by (unfold degree in *; lia).
    rewrite globalTriangles_eq, bool_decide_eq_true_2 by lia.
    pose proof (countTriangles_le G u) as Hle.
    rewrite countTriangles_eq in Hle.
    rewrite (Zsum_ext _ (λ v, Z.of_nat (length (filter (λ w, w ∈ uNeighbors G u)
                                                       (edgesOf G v))))).
    + apply Hle; [intros; apply Hs..|done].
    + intros v _. f_equal. apply length_filter_ext. intros w _.
      rewrite elem_of_uNeighbors. destruct (Hs u) as [_ Hu]. naive_solver.
Qed.

(** X9.  On a graph without parallel edges and self-loops, with degrees below
    [2^32] and with an existing node of degree at least 2, [exactGlobal] is
    a number between 0 and 1. *)
Theorem exactGlobal_unit_interval G u :
  simple G → degrees32 G → u ∈ nodes G → 2 ≤ degree G u →
  in_unit_interval (exactGlobal G).
Proof.
  intros Hs Hd32 Hu Hd. rewrite exactGlobal_eq.
  assert (0 < Zsum (tripleMass G) (nodes G)) as Hpos.
  { apply (Zsum_pos _ _ u); [intros; apply tripleMass_nonneg|done|].
    unfold tripleMass. rewrite mul64_pred; [nia|].
    specialize (Hd32 u). lia. }
  rewrite ddiv_counts by lia.
  apply quotient_in_unit_interval; [|done]. split.
  - apply Zsum_nonneg. intros v _. by apply globalTriangles_le_mass.
  - apply Zsum_mono. intros v _. by apply globalTriangles_le_mass.
Qed.

Lemma exactGlobal_unit_interval_witness : in_unit_interval (exactGlobal triangleGraph).
Proof.
  apply (exactGlobal_unit_interval triangleGraph 0).
  - by apply simpleb_simple.
  - by apply degrees32b_degrees32.
  - by_eval.
  - by_eval.
Defined.

(** ** avgLocal: the range of the average *)

Lemma avgLocal_eq_mean G :
  fits (upperNodeIdBound G) →
  avgLocal G
  = mean (map (vget (Finite 0%Qc) (exactLocal G))
              (filter (λ u, 2 ≤ degree G u) (nodes G))).
Proof.
  intros Hz. unfold avgLocal.
  rewrite (avgLocal_loop (vget (Finite 0%Qc) (exactLocal G)) (λ u, 2 ≤ degree G u)).
  unfold mean. rewrite length_map. do 2 f_equal.
  rewrite foldl_tally by (unfold fits; lia).
  rewrite Z.add_0_l. by apply wrap_small, length_filter_nodes_fits.
Qed.

Lemma Qc_quotient_unit (a b : Qc) :
  (0 ≤ a)%Qc → (a ≤ b)%Qc → (0 < b)%Qc → (0 ≤ a / b)%Qc ∧ (a / b ≤ 1)%Qc.
Proof.
  intros Ha Hab Hb. unfold Qcdiv.
  assert (0 ≤ / b)%Qc as Hi by (by apply Qclt_le_weak, Qcinv_pos).
  split.
  - by apply Qcmult_nonneg_nonneg.
  - rewrite <- (Qcmult_inv_r b).
    + by apply Qcmult_le_mono_nonneg_r.
    + intros E. rewrite E in Hb. by apply (irreflexivity Qclt 0%Qc).
Qed.

Lemma sum_of_unit_values (l : list double) (s : Qc) :
  Forall in_unit_interval l →
  ∃ s', foldl dadd (Finite s) l = Finite s'
        ∧ (s ≤ s')%Qc ∧ (s' ≤ s + Qc_of_Z (Z.of_nat (length l)))%Qc.
Proof.
  intros Hall. revert s. induction Hall as [|x l Hx Hall IH]; intros s.
  - exists s. split; [done|]. split; [done|].
    change (Z.of_nat (length (@nil double))) with 0.
    by rewrite Z2Qc_inj_0, Qcplus_0_r.
  - destruct x as [q| |]; simpl in Hx; try done. destruct Hx as [Hq0 Hq1].
    cbn [foldl dadd length].
    destruct (IH (s + q)%Qc) as (s' & Hs' & Hlo & Hhi).
    exists s'. split; [done|]. split.
    + trans (s + q)%Qc; [|done].
      rewrite <- (Qcplus_0_r s) at 1. by apply Qcplus_le_mono_l.
    + trans (s + q + Qc_of_Z (Z.of_nat (length l)))%Qc; [done|].
      rewrite Nat2Z.inj_succ, <- Z.add_1_l, Z2Qc_inj_add, Z2Qc_inj_1.
      rewrite <- !Qcplus_assoc. apply Qcplus_le_mono_l.
      by apply Qcplus_le_mono_r.
Qed.

Lemma mean_in_unit_interval (l : list double) :
  l ≠ [] → Forall in_unit_interval l → in_unit_interval (mean l).
Proof.
  intros Hne Hall. unfold mean.
  destruct (sum_of_unit_values l 0%Qc Hall) as (s & -> & Hlo & Hhi).
  rewrite Qcplus_0_l in Hhi.
  assert (0 < Z.of_nat (length l)) as Hlen by (destruct l; [done|simpl; lia]).
  pose proof (Qc_of_Z_pos _ Hlen) as Hpos.
  unfold of_count, ddiv. rewrite bool_decide_eq_false_2.
  - simpl. by apply Qc_quotient_unit.
  - intros E. rewrite E in Hpos. by apply (irreflexivity Qclt 0%Qc).
Qed.

(** X10.  On a graph without parallel edges and self-loops, with degrees
    below [2^32] and with an existing node of degree at least 2, [avgLocal]
    is a number between 0 and 1. *)
Theorem avgLocal_unit_interval G u :
  simple G → degrees32 G → fits (upperNodeIdBound G) →
  u ∈ nodes G → 2 ≤ degree G u →
  in_unit_interval (avgLocal G).
Proof.
  intros Hs Hd32 Hz Hu Hd. rewrite avgLocal_eq_mean by done.
  apply mean_in_unit_interval.
  - intros E%fmap_nil_inv.
    assert (u ∈ filter (λ u, 2 ≤ degree G u) (nodes G)) as Hin
      by (by apply list_elem_of_filter).
    rewrite E in Hin. set_solver.
  - apply Forall_fmap, Forall_forall. intros v [_ Hv]%list_elem_of_filter. simpl.
    unfold vget. rewrite exactLocal_lookup by done. simpl.
    apply localCoefficient_in_unit_interval; [| |apply Hd32].
    + intros w _. apply Hs.
    + intros w _ _. apply Hs.
Qed.

Lemma avgLocal_unit_interval_witness : in_unit_interval (avgLocal pathGraph).
Proof.
  apply (avgLocal_unit_interval pathGraph 0).
  - by apply simpleb_simple.
  - by apply degrees32b_degrees32.
  - by_eval.
  - by_eval.
  - by_eval.
Defined.

(** ** The draws of a node and of a neighbour *)

Lemma randomNode_elem rnd G i v j :
  randomNode rnd G i = Done v j → v ∈ nodes G ∧ j = S i.
Proof.
  unfold randomNode. destruct (nodes G !! _) as [v'|] eqn:E; [|done].
  intros [= <- <-]. split; [|done]. by eapply list_elem_of_lookup_2.
Qed.

Lemma randomNode_Done rnd G i :
  nodes G ≠ [] → ∃ v, randomNode rnd G i = Done v (S i) ∧ v ∈ nodes G.
Proof.
  intros Hne. unfold randomNode.
  assert (0 < Z.of_nat (length (nodes G))) as Hlen
    by (destruct (nodes G); [done|simpl; lia]).
  pose proof (Z.mod_pos_bound (rnd i) _ Hlen) as Hb.
  destruct (lookup_lt_is_Some_2 (nodes G)
              (Z.to_nat (rnd i mod Z.of_nat (length (nodes G))))) as [v Hv]; [lia|].
  rewrite Hv. exists v. split; [done|]. by eapply list_elem_of_lookup_2.
Qed.

Lemma randomNeighbor_elem rnd G v i w j :
  randomNeighbor rnd G v i = Done w j → w ∈ edgesOf G v ∧ j = S i.
Proof.
  unfold randomNeighbor. destruct (edgesOf G v !! _) as [w'|] eqn:E; [|done].
  intros [= <- <-]. split; [|done]. by eapply list_elem_of_lookup_2.
Qed.

Lemma randomNeighbor_Done rnd G v i :
  0 < degree G v → ∃ w, randomNeighbor rnd G v i = Done w (S i) ∧ w ∈ edgesOf G v.
Proof.
  intros Hd. unfold randomNeighbor.
  pose proof (Z.mod_pos_bound (rnd i) _ Hd) as Hb.
  destruct (lookup_lt_is_Some_2 (edgesOf G v) (Z.to_nat (rnd i mod degree G v)))
    as [w Hw]; [unfold degree in *; lia|].
  rewrite Hw. exists w. split; [done|]. by eapply list_elem_of_lookup_2.
Qed.

(** ** approxAvgLocal on a graph without triples *)

Lemma approxAvgLocal_body_discards rnd G :
  (∀ u, u ∈ nodes G → degree G u < 2) →
  ∀ fuel k t i kt j,
    approxAvgLocal_body rnd G fuel k t i = Done kt j → kt = (sub64 k 1, t).
Proof.
  intros Hd fuel k t i kt j. unfold approxAvgLocal_body, bind, ret.
  destruct (randomNode rnd G i) as [v i1| |] eqn:Ev; try done.
  apply randomNode_elem in Ev as [Hv _].
  rewrite bool_decide_eq_true_2 by (by apply Hd). by intros [= <- <-].
Qed.

(** X11.  When no existing node has degree 2 or more, [approxAvgLocal] with
    a positive trial count returns no value: every drawn node is discarded
    and [k] stays at 0; on a graph with at least one node the trial loop is
    still running after any number of iterations. *)
Theorem approxAvgLocal_no_triples fuel rnd G trials :
  0 < trials → (∀ u, u ∈ nodes G → degree G u < 2) →
  (∀ x i, approxAvgLocal fuel rnd G trials ≠ Done x i)
  ∧ (nodes G ≠ [] → approxAvgLocal fuel rnd G trials = OutOfFuel).
Proof.
  intros Htrials Hd. split.
  - intros x i. unfold approxAvgLocal, bind.
    destruct (forTrials_none_counted fuel (approxAvgLocal_body rnd G)
                trials (Finite 0%Qc) 0%nat Htrials
                (approxAvgLocal_body_discards rnd G Hd)) as [-> | ->]; done.
  - intros Hne. unfold approxAvgLocal, bind.
    rewrite forTrials_discard_forever; [done|done|].
    intros fuel' k t i. unfold approxAvgLocal_body, bind, ret.
    destruct (randomNode_Done rnd G i Hne) as (v & -> & Hv).
    by rewrite bool_decide_eq_true_2 by (by apply Hd).
Qed.

Lemma approxAvgLocal_no_triples_witness :
  approxAvgLocal 7 countingDraws edgeGraph 2 = OutOfFuel.
Proof.
  refine (proj2 (approxAvgLocal_no_triples 7 countingDraws edgeGraph 2 _ _) _).
  - lia.
  - intros u _. apply degree_edgeGraph.
  - by_eval.
Defined.

(** ** What a trial draws *)

Lemma redraw_Done fuel rnd G v u w i w' j :
  redraw fuel rnd G v u w i = Done w' j →
  (i ≤ j)%nat ∧ w' ≠ u ∧ (w' = w ∨ w' ∈ edgesOf G v).
Proof.
  revert w i. induction fuel as [|fuel IH]; intros w i; cbn [redraw];
    case_bool_decide as Huw; try done.
  - intros [= <- <-]. split; [lia|]. split; [congruence|by left].
  - unfold bind. destruct (randomNeighbor rnd G v i) as [w1 i1| |] eqn:E; try done.
    apply randomNeighbor_elem in E as [Hw1 ->].
    intros Hr. destruct (IH _ _ Hr) as (Hle & Hne & [-> | Hin]).
    + split; [lia|]. split; [done|by right].
    + split; [lia|]. split; [done|by right].
  - intros [= <- <-]. split; [lia|]. split; [congruence|by left].
Qed.

Lemma closedPair_Done fuel rnd G v triangles i t' j :
  closedPair fuel rnd G v triangles i = Done t' j →
  ∃ u w, u ∈ edgesOf G v ∧ w ∈ edgesOf G v ∧ u ≠ w ∧ (i + 2 ≤ j)%nat
         ∧ t' = if hasEdge G u w then dadd triangles (Finite 1%Qc) else triangles.
Proof.
  unfold closedPair, bind, ret.
  destruct (randomNeighbor rnd G v i) as [u i1| |] eqn:Eu; try done.
  apply randomNeighbor_elem in Eu as [Hu ->].
  destruct (randomNeighbor rnd G v (S i)) as [w i2| |] eqn:Ew; try done.
  apply randomNeighbor_elem in Ew as [Hw ->].
  destruct (redraw fuel rnd G v u w (S (S i))) as [w' i3| |] eqn:Er; try done.
  apply redraw_Done in Er as (Hle & Hne & Hw').
  intros [= <- <-]. exists u, w'.
  split; [done|]. split; [by destruct Hw' as [-> |]|].
  split; [congruence|]. split; [lia|done].
Qed.

Lemma approxAvgLocal_body_draws rnd G : trial_draws (approxAvgLocal_body rnd G).
Proof.
  intros fuel k triangles i kt j. unfold approxAvgLocal_body, bind, ret.
  destruct (randomNode rnd G i) as [v i1| |] eqn:Ev; try done.
  apply randomNode_elem in Ev as [_ ->].
  case_bool_decide.
  - intros [= <- <-]. left. split; [done|lia].
  - destruct (closedPair fuel rnd G v triangles (S i)) as [t' i2| |] eqn:Ec; try done.
    apply closedPair_Done in Ec as (u & w & _ & _ & _ & Hle & _).
    intros [= <- <-]. right. split; [done|lia].
Qed.

Lemma approxGlobal_body_draws rnd G weight psum :
  trial_draws (approxGlobal_body rnd G weight psum).
Proof.
  intros fuel k triangles i kt j.
  unfold approxGlobal_body, bind, ret, integer, diverge, undefined.
  destruct (binarySearch _ _ _ _ _) as [v|]; try done.
  repeat case_bool_decide; try done.
  - intros [= <- <-]. left. split; [done|lia].
  - destruct (closedPair fuel rnd G v triangles (S i)) as [t' i2| |] eqn:Ec; try done.
    apply closedPair_Done in Ec as (u & w & _ & _ & _ & Hle & _).
    intros [= <- <-]. right. split; [done|lia].
Qed.

Lemma forTrials_draws fuel body trials k triangles i t' j :
  trial_draws body → trials < 2 ^ 64 → 0 ≤ k ≤ trials →
  forTrials fuel body trials k triangles i = Done t' j →
  (i + 3 * Z.to_nat (trials - k) ≤ j)%nat.
Proof.
  intros Hbody Htrials. revert k triangles i.
  induction fuel as [|fuel IH]; intros k triangles i Hk; cbn [forTrials];
    case_bool_decide as Hlt; try done.
  - intros [= <- <-]. lia.
  - unfold bind. destruct (body fuel k triangles i) as [kt j1| |] eqn:Eb; try done.
    intros Hrest.
    destruct (Hbody _ _ _ _ _ _ Eb) as [[Hk1 Hj]|[Hk1 Hj]]; rewrite Hk1 in Hrest.
    + rewrite add64_sub64_1 in Hrest by (unfold fits; lia).
      apply IH in Hrest; lia.
    + unfold add64 in Hrest. rewrite wrap_small in Hrest by (unfold fits; lia).
      apply IH in Hrest; lia.
  - intros [= <- <-]. lia.
Qed.

(** X12.  A run of [approxAvgLocal] or of [approxGlobal] that returns has
    made at least three draws per trial; with [trials = 0] both return the
    not-a-number value of [0.0 / 0] without a single draw. *)
Theorem approx_draws fuel rnd G trials :
  0 ≤ trials < 2 ^ 64 →
  (∀ x i, approxAvgLocal fuel rnd G trials = Done x i → (3 * Z.to_nat trials ≤ i)%nat)
  ∧ (∀ x i, approxGlobal fuel rnd G trials = Done x i → (3 * Z.to_nat trials ≤ i)%nat)
  ∧ (trials = 0 → approxAvgLocal fuel rnd G trials = Done NaN 0%nat
                  ∧ approxGlobal fuel rnd G trials = Done NaN 0%nat).
Proof.
  intros Htrials. split; [|split].
  - intros x i. unfold approxAvgLocal, bind, ret.
    destruct (forTrials _ _ _ _ _ _) as [t j| |] eqn:Ef; try done.
    intros [= <- <-].
    apply forTrials_draws in Ef; [|apply approxAvgLocal_body_draws|lia..].
    rewrite Z.sub_0_r in Ef. lia.
  - intros x i. unfold approxGlobal. destruct (prefixWeights G) as [weight psum].
    unfold bind, ret.
    destruct (forTrials _ _ _ _ _ _) as [t j| |] eqn:Ef; try done.
    intros [= <- <-].
    apply forTrials_draws in Ef; [|apply approxGlobal_body_draws|lia..].
    rewrite Z.sub_0_r in Ef. lia.
  - intros ->. split.
    + unfold approxAvgLocal, bind. by destruct fuel.
    + unfold approxGlobal. destruct (prefixWeights G) as [weight psum].
      unfold bind. by destruct fuel.
Qed.

Lemma approx_draws_witness :
  (3 * Z.to_nat 3 ≤ 9)%nat
  ∧ approxAvgLocal 4 countingDraws triangleGraph 0 = Done NaN 0%nat.
Proof.
  split.
  - refine (proj1 (approx_draws 10 countingDraws triangleGraph 3 _) (Finite 1%Qc) 9%nat _).
    + lia.
    + by_eval.
  - refine (proj1 (proj2 (proj2 (approx_draws 4 countingDraws triangleGraph 0 _)) _)).
    + lia.
    + done.
Defined.

(** ** The estimators at the two extremes *)

Lemma allCliquesb_allCliques G : allCliquesb G = true → allCliques G.
Proof.
  unfold allCliquesb. intros H%Is_true_true%forallb_True v u w Hu Hw Hne.
  destruct (edgesOf_lookup G v) as [E|[_ Hl]]; [rewrite E in Hu; set_solver|].
  rewrite Forall_lookup in H. specialize (H _ _ Hl).
  apply forallb_True in H. rewrite Forall_forall in H. specialize (H u Hu).
  apply forallb_True in H. rewrite Forall_forall in H. specialize (H w Hw).
  apply orb_True in H as [H|H].
  - by apply bool_decide_unpack in H.
  - unfold hasEdge in H. by apply bool_decide_unpack in H.
Qed.

Lemma triangleFreeb_triangleFree G : triangleFreeb G = true → triangleFree G.
Proof.
  unfold triangleFreeb. intros H%Is_true_true%forallb_True v u w Hu Hw Hne.
  destruct (edgesOf_lookup G v) as [E|[_ Hl]]; [rewrite E in Hu; set_solver|].
  rewrite Forall_lookup in H. specialize (H _ _ Hl).
  apply forallb_True in H. rewrite Forall_forall in H. specialize (H u Hu).
  apply forallb_True in H. rewrite Forall_forall in H. specialize (H w Hw).
  apply orb_True in H as [H|H].
  - by apply bool_decide_unpack in H.
  - unfold hasEdge in H. apply negb_True in H. intros Hin. apply H.
    by apply bool_decide_pack.
Qed.

Lemma forTrials_exact fuel body trials c k h i t' j :
  (∀ fuel k h i kt j,
     body fuel k (of_count h) i = Done kt j →
     kt = (sub64 k 1, of_count h) ∨ kt = (k, of_count (h + c))) →
  trials < 2 ^ 64 → 0 ≤ k ≤ trials →
  forTrials fuel body trials k (of_count h) i = Done t' j →
  t' = of_count (h + c * (trials - k)).
Proof.
  intros Hbody Htrials. revert k h i.
  induction fuel as [|fuel IH]; intros k h i Hk; cbn [forTrials];
    case_bool_decide as Hlt; try done.
  - intros [= <- <-]. replace k with trials by lia. f_equal. lia.
  - unfold bind. destruct (body fuel k (of_count h) i) as [kt j1| |] eqn:Eb; try done.
    destruct (Hbody _ _ _ _ _ _ Eb) as [-> | ->]; simpl.
    + rewrite add64_sub64_1 by (unfold fits; lia). by apply IH.
    + unfold add64. rewrite wrap_small by (unfold fits; lia).
      intros Hrest. apply IH in Hrest; [|lia]. rewrite Hrest. f_equal. lia.
  - intros [= <- <-]. replace k with trials by lia. f_equal. lia.
Qed.

Lemma estimate_exact fuel body trials c x i :
  (∀ fuel k h i kt j,
     body fuel k (of_count h) i = Done kt j →
     kt = (sub64 k 1, of_count h) ∨ kt = (k, of_count (h + c))) →
  0 < trials < 2 ^ 64 →
  (let* triangles := forTrials fuel body trials 0 (Finite 0%Qc) in
   ret (ddiv triangles (of_count trials))) 0%nat = Done x i →
  x = Finite (Qc_of_Z (c * trials) / Qc_of_Z trials)%Qc.
Proof.
  intros Hbody Htrials. unfold bind, ret. rewrite <- of_count_0.
  destruct (forTrials fuel body trials 0 (of_count 0) 0%nat) as [t j| |] eqn:Ef;
    try done.
  intros [= <- <-].
  apply (forTrials_exact _ _ _ c) in Ef; [|done|lia..].
  rewrite Ef, ddiv_counts by lia. do 3 f_equal. lia.
Qed.

Lemma closedPair_exact fuel rnd G v h i t' j (b : bool) :
  (∀ u w, u ∈ edgesOf G v → w ∈ edgesOf G v → u ≠ w → hasEdge G u w = b) →
  closedPair fuel rnd G v (of_count h) i = Done t' j →
  t' = of_count (h + (if b then 1 else 0)).
Proof.
  intros Hedge Hcp.
  apply closedPair_Done in Hcp as (u & w & Hu & Hw & Hne & _ & ->).
  rewrite (Hedge u w Hu Hw Hne).
  destruct b; [apply dadd_count_1|by rewrite Z.add_0_r].
Qed.

Lemma bodies_exact rnd G (b : bool) :
  (∀ v u w, u ∈ edgesOf G v → w ∈ edgesOf G v → u ≠ w → hasEdge G u w = b) →
  (∀ fuel k h i kt j,
     approxAvgLocal_body rnd G fuel k (of_count h) i = Done kt j →
     kt = (sub64 k 1, of_count h) ∨ kt = (k, of_count (h + (if b then 1 else 0))))
  ∧ (∀ weight psum fuel k h i kt j,
       approxGlobal_body rnd G weight psum fuel k (of_count h) i = Done kt j →
       kt = (sub64 k 1, of_count h) ∨ kt = (k, of_count (h + (if b then 1 else 0)))).
Proof.
  intros Hedge. split.
  - intros fuel k h i kt j. unfold approxAvgLocal_body, bind, ret.
    destruct (randomNode rnd G i) as [v i1| |]; try done.
    case_bool_decide; [intros [= <- <-]; by left|].
    destruct (closedPair fuel rnd G v (of_count h) i1) as [t' i2| |] eqn:Ec; try done.
    intros [= <- <-]. right.
    by rewrite (closedPair_exact _ _ _ _ _ _ _ _ _ (Hedge v) Ec).
  - intros weight psum fuel k h i kt j.
    unfold approxGlobal_body, bind, ret, integer, diverge, undefined.
    destruct (binarySearch _ _ _ _ _) as [v|]; try done.
    repeat case_bool_decide; try done; [intros [= <- <-]; by left|].
    destruct (closedPair fuel rnd G v (of_count h) (S i)) as [t' i2| |] eqn:Ec;
      try done.
    intros [= <- <-]. right.
    by rewrite (closedPair_exact _ _ _ _ _ _ _ _ _ (Hedge v) Ec).
Qed.

(** X13.  On a graph in which any two distinct neighbours of any node are
    adjacent, every counted trial is a hit: for a trial count from 1 to
    [2^53] a value returned by [approxAvgLocal] or by [approxGlobal] is
    [1.0].  Up to that bound every value that [triangles] takes on the way,
    and the trial count, is an integer that binary64 holds as it is, so that
    each [triangles++] is exact. *)
Theorem approx_all_cliques fuel rnd G trials :
  0 < trials ≤ 2 ^ 53 → allCliques G →
  (∀ x i, approxAvgLocal fuel rnd G trials = Done x i → x = Finite 1%Qc)
  ∧ (∀ x i, approxGlobal fuel rnd G trials = Done x i → x = Finite 1%Qc)
  ∧ (∀ h, 0 ≤ h ≤ trials → toDouble h = h).
Proof.
  intros Hbound Hclique.
  assert (0 < trials < 2 ^ 64) as Htrials by lia.
  destruct (bodies_exact rnd G true) as [Havg Hglobal].
  { intros v u w Hu Hw Hne. unfold hasEdge.
    apply bool_decide_eq_true_2. by apply (Hclique v). }
  split; [|split]; [intros x i..|].
  - unfold approxAvgLocal. intros Hx.
    apply (estimate_exact _ _ _ 1) in Hx; [|done..].
    rewrite Hx, Z.mul_1_l, Finite_quotient_self; [done|lia].
  - unfold approxGlobal. destruct (prefixWeights G) as [weight psum]. intros Hx.
    apply (estimate_exact _ _ _ 1) in Hx; [|apply Hglobal|done].
    rewrite Hx, Z.mul_1_l, Finite_quotient_self; [done|lia].
  - intros h Hh. apply toDouble_exact. lia.
Qed.

Lemma approx_all_cliques_witness :
  allCliques triangleGraph
  ∧ approxAvgLocal 10 countingDraws triangleGraph 3 = Done (Finite 1%Qc) 9%nat
  ∧ (∀ x i, approxGlobal 10 countingDraws triangleGraph 3 = Done x i →
            x = Finite 1%Qc).
Proof.
  assert (allCliques triangleGraph) as Hall by by apply allCliquesb_allCliques.
  assert (0 < 3 ≤ 2 ^ 53) as Htrials by lia.
  split; [exact Hall|]. split; [by_eval|].
  exact (proj1 (proj2
           (approx_all_cliques 10 countingDraws triangleGraph 3 Htrials Hall))).
Defined.

(** X14.  On a graph in which no two distinct neighbours of any node are
    adjacent, no counted trial is a hit: for a positive trial count a value
    returned by [approxAvgLocal] or by [approxGlobal] is [0.0]. *)
Theorem approx_triangle_free fuel rnd G trials :
  0 < trials < 2 ^ 64 → triangleFree G →
  (∀ x i, approxAvgLocal fuel rnd G trials = Done x i → x = Finite 0%Qc)
  ∧ (∀ x i, approxGlobal fuel rnd G trials = Done x i → x = Finite 0%Qc).
Proof.
  intros Htrials Hfree.
  destruct (bodies_exact rnd G false) as [Havg Hglobal].
  { intros v u w Hu Hw Hne. unfold hasEdge.
    apply bool_decide_eq_false_2. by apply (Hfree v). }
  split; intros x i.
  - unfold approxAvgLocal. intros Hx.
    apply (estimate_exact _ _ _ 0) in Hx; [|done..].
    by rewrite Hx, Z.mul_0_l, Finite_quotient_zero.
  - unfold approxGlobal. destruct (prefixWeights G) as [weight psum]. intros Hx.
    apply (estimate_exact _ _ _ 0) in Hx; [|apply Hglobal|done].
    by rewrite Hx, Z.mul_0_l, Finite_quotient_zero.
Qed.

Lemma approx_triangle_free_witness :
  triangleFree pathGraph
  ∧ approxGlobal 10 countingDraws pathGraph 2 = Done (Finite 0%Qc) 6%nat
  ∧ (∀ x i, approxAvgLocal 10 countingDraws pathGraph 2 = Done x i →
            x = Finite 0%Qc).
Proof.
  assert (triangleFree pathGraph) as Hfree by by apply triangleFreeb_triangleFree.
  assert (0 < 2 < 2 ^ 64) as Htrials by lia.
  split; [exact Hfree|]. split; [by_eval|].
  exact (proj1 (approx_triangle_free 10 countingDraws pathGraph 2 Htrials Hfree)).
Defined.

(** ** Which node a draw selects *)

(** X15.  On a non-decreasing vector, a draw [r] that lies strictly between
    the value of the slot before [v] (or is anything below the value of
    slot 0, for [v = 0]) and the value of slot [v] makes the binary search
    return [v]. *)
Theorem binarySearch_selects (weight : list Z) (r v : Z) :
  let z := Z.of_nat (length weight) in
  z < 2 ^ 63 → StronglySorted Z.le weight → 0 ≤ v < z →
  (v = 0 ∨ vget 0 weight (v - 1) < r) → r < vget 0 weight v →
  binarySearch (Z.to_nat z) weight r 0 z = Some v.
Proof.
  intros z Hz Hs Hv Hlo Hhi.
  destruct (binarySearch_invariant (Z.to_nat z) weight r 0 z)
    as (v' & -> & Hrange & Hcase); try done; try lia.
  f_equal. destruct Hcase as [[Hlt Heq]|[Hbelow Habove]].
  - destruct (decide (v ≤ v')).
    + pose proof (sorted_vget weight v v' Hs). lia.
    + pose proof (sorted_vget weight v' (v - 1) Hs). lia.
  - destruct (decide (v' ≤ v)) as [Hle|Hgt]; [|specialize (Hbelow v); lia].
    destruct (decide (v' = v)) as [|Hne]; [done|].
    specialize (Habove (v - 1)). lia.
Qed.

Lemma binarySearch_selects_witness :
  binarySearch (Z.to_nat 3) [2; 4; 6] 3 0 3 = Some 1.
Proof. apply (binarySearch_selects [2; 4; 6] 3 1); by_eval. Defined.

Lemma sorted_of_vget (l : list Z) :
  (∀ i j, 0 ≤ i ≤ j → j < Z.of_nat (length l) → vget 0 l i ≤ vget 0 l j) →
  StronglySorted Z.le l.
Proof.
  induction l as [|a l IH]; intros Hmono; constructor.
  - apply IH. intros i j Hij Hj.
    specialize (Hmono (i + 1) (j + 1)). unfold vget in *.
    replace (Z.to_nat (i + 1)) with (S (Z.to_nat i)) in Hmono by lia.
    replace (Z.to_nat (j + 1)) with (S (Z.to_nat j)) in Hmono by lia.
    simpl in Hmono. apply Hmono; [lia|]. simpl. lia.
  - apply Forall_forall. intros x Hx.
    apply list_elem_of_lookup_1 in Hx as [n Hn].
    specialize (Hmono 0 (Z.of_nat (S n))). unfold vget in Hmono.
    rewrite Nat2Z.id in Hmono. simpl in Hmono. rewrite Hn in Hmono. simpl in Hmono.
    apply Hmono; [lia|]. apply lookup_lt_Some in Hn. lia.
Qed.

Lemma filter_ext_in {A : Type} (P Q : A → Prop)
    `{!∀ x, Decision (P x)} `{!∀ x, Decision (Q x)} (l : list A) :
  (∀ x, x ∈ l → P x ↔ Q x) → filter P l = filter Q l.
Proof.
  induction l as [|a l IH]; intros Hext; [done|].
  rewrite !filter_cons.
  assert (P a ↔ Q a) by (apply Hext; set_solver).
  rewrite IH by (intros; apply Hext; set_solver).
  repeat case_decide; try done; tauto.
Qed.

Lemma cumulativeMass_step G v :
  v ∈ nodes G → cumulativeMass G v = cumulativeMass G (v - 1) + tripleMass G v.
Proof.
  intros Hv. unfold cumulativeMass. pose proof (NoDup_nodes G) as Hnd.
  induction (nodes G) as [|a l IH]; [set_solver|].
  apply NoDup_cons in Hnd as [Ha Hnd]. rewrite !filter_cons.
  destruct (decide (a = v)) as [->|Hne].
  - rewrite decide_True, decide_False by lia. simpl.
    assert (filter (λ x, x ≤ v) l = filter (λ x, x ≤ v - 1) l) as ->; [|lia].
    apply filter_ext_in. intros x Hx.
    assert (x ≠ v) by set_solver. lia.
  - assert (v ∈ l) as Hin by set_solver. specialize (IH Hin Hnd).
    repeat case_decide; simpl; lia.
Qed.

Section dense.
Context (G : Graph).
Hypothesis Hdense : ∀ i, 0 ≤ i < upperNodeIdBound G → i ∈ nodes G.
Hypothesis Hfit : Zsum (tripleMass G) (nodes G) < 2 ^ 64.

Lemma dense_slot i :
  0 ≤ i < upperNodeIdBound G → vget 0 (prefixWeights G).1 i = cumulativeMass G i.
Proof.
  intros Hi. destruct (prefixWeights_at G) as (_ & _ & Hin & _).
  rewrite Hin by (by apply Hdense). apply wrap_small. unfold fits.
  pose proof (cumulativeMass_mono G i i). pose proof (cumulativeMass_le_total G i).
  lia.
Qed.

Lemma dense_psum : (prefixWeights G).2 = Zsum (tripleMass G) (nodes G).
Proof.
  destruct (prefixWeights_at G) as (_ & -> & _ & _).
  apply wrap_small. unfold fits. split; [|done].
  apply Zsum_nonneg. intros; apply tripleMass_nonneg.
Qed.

Lemma dense_length :
  Z.of_nat (length (prefixWeights G).1) = upperNodeIdBound G.
Proof.
  destruct (prefixWeights_at G) as (-> & _). unfold upperNodeIdBound. lia.
Qed.

Lemma dense_sorted : StronglySorted Z.le (prefixWeights G).1.
Proof.
  apply sorted_of_vget. rewrite dense_length. intros i j Hij Hj.
  rewrite !dense_slot by lia. pose proof (cumulativeMass_mono G i j). lia.
Qed.
End dense.

(** X16.  On a graph without deleted ids whose total mass fits in 64 bits,
    the search over the vector [weight] of [approxGlobal] returns node [v]
    for every draw [r] strictly between the cumulative mass up to [v - 1]
    (or any [r] below the mass of node 0, for [v = 0]) and the cumulative
    mass up to [v]; the two bounds are the mass [degree * (degree - 1)] of
    [v] apart. *)
Theorem sampler_selects G v r :
  (∀ i, 0 ≤ i < upperNodeIdBound G → i ∈ nodes G) →
  Zsum (tripleMass G) (nodes G) < 2 ^ 64 →
  upperNodeIdBound G < 2 ^ 63 → 0 ≤ v < upperNodeIdBound G →
  (v = 0 ∨ cumulativeMass G (v - 1) < r) → r < cumulativeMass G v →
  binarySearch (Z.to_nat (upperNodeIdBound G)) (prefixWeights G).1 r 0
               (upperNodeIdBound G) = Some v
  ∧ cumulativeMass G v = cumulativeMass G (v - 1) + tripleMass G v.
Proof.
  intros Hdense Hfit Hz Hv Hlo Hhi. split; [|by apply cumulativeMass_step, Hdense].
  pose proof (dense_length G) as Hlen.
  destruct (binarySearch_invariant (Z.to_nat (upperNodeIdBound G))
              (prefixWeights G).1 r 0 (upperNodeIdBound G))
    as (v' & -> & Hrange & Hcase);
    [rewrite Hlen; lia|by apply dense_sorted|lia|rewrite Hlen; lia|lia|lia|
     rewrite Hlen; intros; lia|].
  rewrite Hlen in Hrange, Hcase. f_equal.
  assert (∀ i, 0 ≤ i < upperNodeIdBound G →
               vget 0 (prefixWeights G).1 i = cumulativeMass G i) as Hslot
    by (intros; by apply dense_slot).
  destruct Hcase as [[Hlt Heq]|[Hbelow Habove]].
  - rewrite Hslot in Heq by lia.
    destruct (decide (v ≤ v')).
    + pose proof (cumulativeMass_mono G v v'). lia.
    + pose proof (cumulativeMass_mono G v' (v - 1)). lia.
  - destruct (decide (v' ≤ v)) as [Hle|Hgt].
    + destruct (decide (v' = v)) as [|Hne]; [done|].
      specialize (Habove (v - 1)). rewrite Hslot in Habove by lia. lia.
    + specialize (Hbelow v). rewrite Hslot in Hbelow by lia. lia.
Qed.

Lemma dense_triangleGraph i :
  0 ≤ i < upperNodeIdBound triangleGraph → i ∈ nodes triangleGraph.
Proof.
  intros Hi.
  assert (i = 0 ∨ i = 1 ∨ i = 2) as [-> | [-> | ->]]
    by (unfold upperNodeIdBound in Hi; simpl in Hi; lia); by_eval.
Qed.

Lemma sampler_selects_witness :
  binarySearch (Z.to_nat (upperNodeIdBound triangleGraph))
               (prefixWeights triangleGraph).1 3 0 (upperNodeIdBound triangleGraph)
  = Some 1
  ∧ cumulativeMass triangleGraph 1
    = cumulativeMass triangleGraph (1 - 1) + tripleMass triangleGraph 1.
Proof.
  apply (sampler_selects triangleGraph 1 3).
  - exact dense_triangleGraph.
  - by_eval.
  - by_eval.
  - by_eval.
  - right. by_eval.
  - by_eval.
Defined.

(** ** approxGlobal stays inside the graph *)

Lemma redraw_defined fuel rnd G v u w i :
  0 < degree G v → redraw fuel rnd G v u w i ≠ Undefined.
Proof.
  intros Hd. revert w i. induction fuel as [|fuel IH]; intros w i; cbn [redraw];
    case_bool_decide; try done.
  unfold bind. destruct (randomNeighbor_Done rnd G v i Hd) as (w' & -> & _).
  apply IH.
Qed.

Lemma closedPair_defined fuel rnd G v triangles i :
  0 < degree G v → closedPair fuel rnd G v triangles i ≠ Undefined.
Proof.
  intros Hd. unfold closedPair, bind, ret.
  destruct (randomNeighbor_Done rnd G v i Hd) as (u & -> & _).
  destruct (randomNeighbor_Done rnd G v (S i) Hd) as (w & -> & _).
  pose proof (redraw_defined fuel rnd G v u w (S (S i)) Hd).
  by destruct (redraw fuel rnd G v u w (S (S i))).
Qed.

Lemma forTrials_defined fuel body trials k triangles i :
  (∀ fuel k t i, body fuel k t i ≠ Undefined) →
  forTrials fuel body trials k triangles i ≠ Undefined.
Proof.
  intros Hbody. revert k triangles i.
  induction fuel as [|fuel IH]; intros k triangles i; cbn [forTrials];
    case_bool_decide; try done.
  unfold bind. pose proof (Hbody fuel k triangles i).
  destruct (body fuel k triangles i) as [kt j| |]; [apply IH|done|done].
Qed.

Lemma approxGlobal_body_defined rnd G fuel k t i :
  (∀ i, 0 ≤ i < upperNodeIdBound G → i ∈ nodes G) →
  0 < Zsum (tripleMass G) (nodes G) < 2 ^ 64 →
  upperNodeIdBound G < 2 ^ 63 →
  approxGlobal_body rnd G (prefixWeights G).1 (prefixWeights G).2 fuel k t i
  ≠ Undefined.
Proof.
  intros Hdense Hmass Hz.
  unfold approxGlobal_body, bind, integer, diverge, undefined, ret.
  rewrite dense_psum by (done || lia).
  set (total := Zsum (tripleMass G) (nodes G)) in *.
  unfold sub64. rewrite wrap_small by (unfold fits; lia).
  replace (total - 1 + 1) with total by lia.
  pose proof (Z.mod_pos_bound (rnd i) total (proj1 Hmass)) as Hr.
  set (r := rnd i mod total) in *.
  assert (0 < upperNodeIdBound G) as Hpos.
  { destruct (decide (0 < upperNodeIdBound G)); [done|]. exfalso.
    assert (nodes G = []) as E.
    { unfold nodes. rewrite seqZ_nil by lia. done. }
    unfold total in Hmass. rewrite E in Hmass. simpl in Hmass. lia. }
  pose proof (dense_length G) as Hlen.
  destruct (binarySearch_invariant (Z.to_nat (upperNodeIdBound G))
              (prefixWeights G).1 r 0 (upperNodeIdBound G))
    as (v & -> & Hrange & Hcase);
    [rewrite Hlen; lia|apply dense_sorted; (done || lia)|lia|rewrite Hlen; lia|
     lia|lia|rewrite Hlen; intros; lia|].
  rewrite Hlen in Hrange, Hcase.
  assert (v < upperNodeIdBound G) as Hv.
  { destruct Hcase as [[Hlt _]|[Hbelow _]]; [done|].
    destruct (decide (v < upperNodeIdBound G)); [done|]. exfalso.
    specialize (Hbelow (upperNodeIdBound G - 1)).
    rewrite dense_slot in Hbelow by (done || lia).
    rewrite cumulativeMass_last in Hbelow by lia. fold total in Hbelow. lia. }
  rewrite bool_decide_eq_false_2 by lia.
  case_bool_decide as Hd; [done|].
  pose proof (closedPair_defined fuel rnd G v t (S i)) as Hc.
  destruct (closedPair fuel rnd G v t (S i)); try done.
  exfalso. apply Hc; [lia|done].
Qed.

(** X17.  On a graph without deleted ids, with fewer than [2^63] ids and a
    total mass that is positive and fits in 64 bits, [approxGlobal] never
    reaches an operation without defined behaviour: every draw selects an id
    below the bound, and a neighbour is only drawn at a node that has
    one. *)
Theorem approxGlobal_in_range fuel rnd G trials :
  (∀ i, 0 ≤ i < upperNodeIdBound G → i ∈ nodes G) →
  0 < Zsum (tripleMass G) (nodes G) < 2 ^ 64 →
  upperNodeIdBound G < 2 ^ 63 →
  approxGlobal fuel rnd G trials ≠ Undefined.
Proof.
  intros Hdense Hmass Hz. unfold approxGlobal.
  pose proof (λ fuel k t i, approxGlobal_body_defined rnd G fuel k t i Hdense Hmass Hz)
    as Hbody.
  destruct (prefixWeights G) as [weight psum]. simpl in Hbody.
  unfold bind, ret.
  pose proof (forTrials_defined fuel _ trials 0 (Finite 0%Qc) 0%nat Hbody) as Hf.
  by destruct (forTrials _ _ _ _ _ _).
Qed.

Lemma approxGlobal_in_range_witness :
  approxGlobal 10 countingDraws triangleGraph 3 ≠ Undefined.
Proof.
  apply approxGlobal_in_range.
  - exact dense_triangleGraph.
  - by_eval.
  - by_eval.
Defined.

(** ** Runs without a discarded trial or a repeated draw *)

Lemma closedPair_clean fuel rnd G v u w t (s : nat) :
  randomNeighbor rnd G v s = Done u (S s) →
  randomNeighbor rnd G v (S s) = Done w (S (S s)) →
  u ≠ w →
  ∃ t', closedPair fuel rnd G v t s = Done t' (S (S s)).
Proof.
  intros Hu Hw Hne. unfold closedPair, bind, ret. rewrite Hu, Hw.
  destruct fuel; cbn [redraw]; rewrite bool_decide_eq_false_2 by done;
    unfold ret; eauto.
Qed.

Lemma forTrials_clean fuel body trials (n : nat) t :
  trials < 2 ^ 64 → Z.of_nat n ≤ trials →
  (∀ f m t, Z.of_nat m < trials →
     ∃ t', body f (Z.of_nat m) t (3 * m)%nat = Done (Z.of_nat m, t') (3 * m + 3)%nat) →
  (Z.to_nat trials - n ≤ fuel)%nat →
  ∃ x, forTrials fuel body trials (Z.of_nat n) t (3 * n)%nat
       = Done x (3 * Z.to_nat trials)%nat.
Proof.
  intros Hfit Hn Hbody. revert n t Hn.
  induction fuel as [|fuel IH]; intros n t Hn Hfuel; cbn [forTrials];
    case_bool_decide as Hk.
  - lia.
  - exists t. unfold ret. f_equal. lia.
  - unfold bind. destruct (Hbody fuel n t Hk) as [t' ->]. cbn [fst snd].
    replace (add64 (Z.of_nat n) 1) with (Z.of_nat (S n))
      by (unfold add64; rewrite wrap_small by (unfold fits; lia); lia).
    replace (3 * n + 3)%nat with (3 * S n)%nat by lia.
    apply IH; lia.
  - exists t. unfold ret. f_equal. lia.
Qed.

(** X18.  [approxAvgLocal] returns when its draws are favourable: if in each
    of the [trials] rounds the node drawn has degree 2 or more and the two
    neighbours drawn differ, then [trials] iterations of the loop suffice,
    no neighbour is drawn again, and the run has consumed exactly three
    draws per trial. *)
Theorem approxAvgLocal_returns fuel rnd G trials :
  0 ≤ trials < 2 ^ 64 →
  (∀ n : nat, Z.of_nat n < trials →
     ∃ v u w, randomNode rnd G (3 * n)%nat = Done v (S (3 * n))
              ∧ 2 ≤ degree G v
              ∧ randomNeighbor rnd G v (S (3 * n)) = Done u (S (S (3 * n)))
              ∧ randomNeighbor rnd G v (S (S (3 * n))) = Done w (S (S (S (3 * n))))
              ∧ u ≠ w) →
  (Z.to_nat trials ≤ fuel)%nat →
  ∃ x, approxAvgLocal fuel rnd G trials = Done x (3 * Z.to_nat trials)%nat.
Proof.
  intros Htrials Hclean Hfuel. unfold approxAvgLocal, bind.
  destruct (forTrials_clean fuel (approxAvgLocal_body rnd G) trials 0 (Finite 0%Qc))
    as [x Hx]; [lia|simpl; lia| |lia|].
  - intros f m t Hm.
    destruct (Hclean m Hm) as (v & u & w & Hv & Hd & Hu & Hw & Hne).
    unfold approxAvgLocal_body, bind. rewrite Hv.
    rewrite bool_decide_eq_false_2 by lia.
    destruct (closedPair_clean f rnd G v u w t (S (3 * m)) Hu Hw Hne) as [t' ->].
    exists t'. unfold ret. f_equal. lia.
  - change (Z.of_nat 0) with 0 in Hx. change (3 * 0)%nat with 0%nat in Hx.
    rewrite Hx. unfold ret. eauto.
Qed.

Lemma approxAvgLocal_returns_witness :
  ∃ x, approxAvgLocal 2 countingDraws triangleGraph 2 = Done x (3 * Z.to_nat 2)%nat.
Proof.
  apply approxAvgLocal_returns.
  - lia.
  - intros n Hn. assert (n = 0 ∨ n = 1)%nat as [-> | ->] by lia.
    + exists 0, 2, 1. repeat split; by_eval.
    + exists 0, 1, 2. repeat split; by_eval.
  - vm_compute. lia.
Defined.

(** X19.  [approxGlobal] returns when its draws are favourable: if in each of
    the [trials] rounds the binary search ends at an id below the bound whose
    node has degree 2 or more, and the two neighbours drawn differ, then
    [trials] iterations of the loop suffice and the run has consumed exactly
    three draws per trial. *)
Theorem approxGlobal_returns fuel rnd G trials :
  0 ≤ trials < 2 ^ 64 →
  (∀ n : nat, Z.of_nat n < trials →
     ∃ v u w,
       binarySearch (Z.to_nat (upperNodeIdBound G)) (prefixWeights G).1
         (rnd (3 * n)%nat mod (sub64 (prefixWeights G).2 1 + 1))
         0 (upperNodeIdBound G) = Some v
       ∧ v < upperNodeIdBound G
       ∧ 2 ≤ degree G v
       ∧ randomNeighbor rnd G v (S (3 * n)) = Done u (S (S (3 * n)))
       ∧ randomNeighbor rnd G v (S (S (3 * n))) = Done w (S (S (S (3 * n))))
       ∧ u ≠ w) →
  (Z.to_nat trials ≤ fuel)%nat →
  ∃ x, approxGlobal fuel rnd G trials = Done x (3 * Z.to_nat trials)%nat.
Proof.
  intros Htrials Hclean Hfuel. unfold approxGlobal.
  destruct (prefixWeights G) as [weight psum]. cbn [fst snd] in Hclean.
  unfold bind.
  destruct (forTrials_clean fuel (approxGlobal_body rnd G weight psum) trials 0
              (Finite 0%Qc)) as [x Hx]; [lia|simpl; lia| |lia|].
  - intros f m t Hm.
    destruct (Hclean m Hm) as (v & u & w & Hv & Hz & Hd & Hu & Hw & Hne).
    unfold approxGlobal_body, bind, integer. rewrite Hv.
    rewrite bool_decide_eq_false_2 by lia.
    rewrite bool_decide_eq_false_2 by lia.
    destruct (closedPair_clean f rnd G v u w t (S (3 * m)) Hu Hw Hne) as [t' ->].
    exists t'. unfold ret. f_equal. lia.
  - change (Z.of_nat 0) with 0 in Hx. change (3 * 0)%nat with 0%nat in Hx.
    rewrite Hx. unfold ret. eauto.
Qed.

Lemma approxGlobal_returns_witness :
  ∃ x, approxGlobal 2 countingDraws triangleGraph 2 = Done x (3 * Z.to_nat 2)%nat.
Proof.
  apply approxGlobal_returns.
  - lia.
  - intros n Hn. assert (n = 0 ∨ n = 1)%nat as [-> | ->] by lia.
    + exists 0, 2, 1. repeat split; by_eval.
    + exists 1, 0, 2. repeat split; by_eval.
  - vm_compute. lia.
Defined.

(** ** exactGlobal above [2^53]: the schedule shows *)







Section star.
Context (m : nat).















End star.


(** ** The counted trials of a run *)

Lemma randomNode_next rnd G i v j : randomNode rnd G i = Done v j → j = S i.
Proof.
  unfold randomNode. destruct (nodes G !! _); [|done]. by intros [= _ <-].
Qed.

Lemma approxAvgLocal_body_exact rnd G :
  trial_exact G (pickedNode_avgLocal rnd G) (approxAvgLocal_body rnd G).
Proof.
  intros fuel k triangles i kt j. unfold approxAvgLocal_body, bind, ret.
  destruct (randomNode rnd G i) as [v i1| |] eqn:Ev; try done.
  pose proof (randomNode_next _ _ _ _ _ Ev) as ->.
  intros Hbody. exists v. split; [unfold pickedNode_avgLocal; by rewrite Ev|].
  case_bool_decide as Hd.
  - injection Hbody as <- <-. left. repeat split; [done|].
    intros Hk. by apply add64_sub64_1.
  - destruct (closedPair fuel rnd G v triangles (S i)) as [t' i2| |] eqn:Ec; try done.
    injection Hbody as <- <-. right.
    destruct (closedPair_Done _ _ _ _ _ _ _ _ Ec) as (u & w & Hu & Hw & Hne & Hj & Ht).
    split; [lia|]. split; [done|]. split; [lia|]. by exists u, w.
Qed.

Lemma approxGlobal_body_exact rnd G :
  trial_exact G (pickedNode_global rnd G)
    (approxGlobal_body rnd G (prefixWeights G).1 (prefixWeights G).2).
Proof.
  intros fuel k triangles i kt j.
  unfold approxGlobal_body, pickedNode_global, bind, ret, integer, diverge, undefined.
  destruct (binarySearch _ _ _ _ _) as [v|]; try done.
  case_bool_decide as Hz; try done.
  intros Hbody. exists v. split; [done|].
  case_bool_decide as Hd.
  - injection Hbody as <- <-. left. repeat split; [done|].
    intros Hk. by apply add64_sub64_1.
  - destruct (closedPair fuel rnd G v triangles (S i)) as [t' i2| |] eqn:Ec; try done.
    injection Hbody as <- <-. right.
    destruct (closedPair_Done _ _ _ _ _ _ _ _ Ec) as (u & w & Hu & Hw & Hne & Hj & Ht).
    split; [lia|]. split; [done|]. split; [lia|]. by exists u, w.
Qed.

Lemma forTrials_counted fuel G picked body trials k h i t' j :
  trial_exact G picked body → trials < 2 ^ 64 → 0 ≤ k ≤ trials →
  forTrials fuel body trials k (of_count h) i = Done t' j →
  Z.of_nat (length (filter (λ c, countedAt G picked c = true)
                           (iterations fuel body trials k (of_count h) i)))
  = trials - k
  ∧ ∃ h', h ≤ h' ≤ h + (trials - k) ∧ t' = of_count h'.
Proof.
  intros Hbody Htrials. revert k h i.
  induction fuel as [|fuel IH]; intros k h i Hk; cbn [forTrials iterations];
    case_bool_decide as Hlt; try done.
  - intros [= <- <-]. split; [simpl; lia|]. exists h. split; [lia|done].
  - unfold bind. destruct (body fuel k (of_count h) i) as [kt j1| |] eqn:Eb; try done.
    destruct (Hbody _ _ _ _ _ _ Eb) as (v & Hv & [(Hd & -> & _ & Hk1)|(Hd & Hk1 & _ & Hhit)]).
    + rewrite Hk1 by (unfold fits; lia). cbn [snd]. intros Hrun.
      rewrite filter_cons_False
        by (unfold countedAt; rewrite Hv, bool_decide_eq_false_2 by lia; done).
      by apply IH.
    + rewrite Hk1. unfold add64. rewrite wrap_small by (unfold fits; lia).
      rewrite filter_cons_True
        by (unfold countedAt; rewrite Hv; by apply bool_decide_eq_true_2).
      destruct Hhit as (u & w & _ & _ & _ & ->). intros Hrun.
      destruct (hasEdge G u w).
      * rewrite dadd_count_1 in Hrun |- *.
        destruct (IH (k + 1) (h + 1) j1 ltac:(lia) Hrun) as (Hlen & h' & Hh' & ->).
        split; [simpl length; lia|]. exists h'. split; [lia|done].
      * destruct (IH (k + 1) h j1 ltac:(lia) Hrun) as (Hlen & h' & Hh' & ->).
        split; [simpl length; lia|]. exists h'. split; [lia|done].
  - intros [= <- <-]. split; [simpl; lia|]. exists h. split; [lia|done].
Qed.

Lemma estimate_counted fuel G picked body trials x i :
  trial_exact G picked body → 0 < trials < 2 ^ 64 →
  (let* triangles := forTrials fuel body trials 0 (Finite 0%Qc) in
   ret (ddiv triangles (of_count trials))) 0%nat = Done x i →
  Z.of_nat (length (filter (λ c, countedAt G picked c = true)
                           (iterations fuel body trials 0 (Finite 0%Qc) 0)))
  = trials
  ∧ ∃ hits, 0 ≤ hits ≤ trials
            ∧ x = Finite (Qc_of_Z hits / Qc_of_Z trials)%Qc
            ∧ in_unit_interval x.
Proof.
  intros Hbody Htrials. unfold bind, ret. rewrite <- of_count_0.
  destruct (forTrials fuel body trials 0 (of_count 0) 0%nat) as [t j| |] eqn:Ef;
    try done.
  intros [= <- <-].
  destruct (forTrials_counted _ _ _ _ _ _ _ _ _ _ Hbody (proj2 Htrials)
              (conj (Z.le_refl 0) (Z.lt_le_incl _ _ (proj1 Htrials))) Ef)
    as (Hlen & hits & Hhits & ->).
  split; [lia|]. exists hits. split; [lia|].
  rewrite ddiv_counts by lia. split; [done|].
  apply quotient_in_unit_interval; lia.
Qed.

Lemma approxAvgLocal_body_clean rnd G trials f (m : nat) t :
  favourable G rnd (pickedNode_avgLocal rnd G) trials → Z.of_nat m < trials →
  ∃ t', approxAvgLocal_body rnd G f (Z.of_nat m) t (3 * m)%nat
        = Done (Z.of_nat m, t') (3 * m + 3)%nat.
Proof.
  intros Hfav Hm. destruct (Hfav m Hm) as (v & u & w & Hv & Hd & Hu & Hw & Hne).
  unfold pickedNode_avgLocal in Hv.
  destruct (randomNode rnd G (3 * m)%nat) as [v' i1| |] eqn:Ev; try done.
  injection Hv as ->. pose proof (randomNode_next _ _ _ _ _ Ev) as ->.
  unfold approxAvgLocal_body, bind. rewrite Ev.
  rewrite bool_decide_eq_false_2 by lia.
  destruct (closedPair_clean f rnd G v u w t (S (3 * m)) Hu Hw Hne) as [t' ->].
  exists t'. unfold ret. f_equal. lia.
Qed.

Lemma approxGlobal_body_clean rnd G trials f (m : nat) t :
  favourable G rnd (pickedNode_global rnd G) trials → Z.of_nat m < trials →
  ∃ t', approxGlobal_body rnd G (prefixWeights G).1 (prefixWeights G).2 f
          (Z.of_nat m) t (3 * m)%nat
        = Done (Z.of_nat m, t') (3 * m + 3)%nat.
Proof.
  intros Hfav Hm. destruct (Hfav m Hm) as (v & u & w & Hv & Hd & Hu & Hw & Hne).
  unfold pickedNode_global, integer in Hv.
  unfold approxGlobal_body, bind, integer.
  destruct (binarySearch _ _ _ _ _) as [v'|]; try done.
  case_bool_decide; try done. injection Hv as ->.
  rewrite bool_decide_eq_false_2 by lia.
  destruct (closedPair_clean f rnd G v u w t (S (3 * m)) Hu Hw Hne) as [t' ->].
  exists t'. unfold ret. f_equal. lia.
Qed.

Lemma estimate_returns fuel body trials :
  0 ≤ trials < 2 ^ 64 → (Z.to_nat trials ≤ fuel)%nat →
  (∀ f (m : nat) t, Z.of_nat m < trials →
     ∃ t', body f (Z.of_nat m) t (3 * m)%nat = Done (Z.of_nat m, t') (3 * m + 3)%nat) →
  ∃ x, (let* triangles := forTrials fuel body trials 0 (Finite 0%Qc) in
        ret (ddiv triangles (of_count trials))) 0%nat
       = Done x (3 * Z.to_nat trials)%nat.
Proof.
  intros Htrials Hfuel Hbody. unfold bind.
  destruct (forTrials_clean fuel body trials 0 (Finite 0%Qc))
    as [x Hx]; [lia|simpl; lia|done|lia|].
  change (Z.of_nat 0) with 0 in Hx. change (3 * 0)%nat with 0%nat in Hx.
  rewrite Hx. unfold ret. eauto.
Qed.

(** C10.  For a positive trial count, whatever the graph and the draws:
    an iteration of either estimator that decides on a node of degree below
    2 leaves [k - 1] in [k], which the increment of the loop turns back into
    [k], so the draw consumes no trial, and leaves [triangles] as it was; an
    iteration that decides on a node of degree 2 or more keeps [k] and adds
    1 to [triangles] exactly when the two distinct neighbours drawn are
    adjacent.  A run that returns has gone through exactly [trials] counted
    iterations and its value is [hits / trials] for a number of hits between
    0 and [trials], a number in [0, 1].  A run returns, after three draws per
    trial, when every round is a counted trial without a repeated draw and
    the loop is given [trials] iterations. *)
Theorem approx_value_in_unit_interval fuel rnd G trials :
  0 < trials < 2 ^ 64 →
  trial_exact G (pickedNode_avgLocal rnd G) (approxAvgLocal_body rnd G)
  ∧ trial_exact G (pickedNode_global rnd G)
      (approxGlobal_body rnd G (prefixWeights G).1 (prefixWeights G).2)
  ∧ (∀ x i, approxAvgLocal fuel rnd G trials = Done x i →
       Z.of_nat (length (filter (λ c, countedAt G (pickedNode_avgLocal rnd G) c = true)
                                (iterations fuel (approxAvgLocal_body rnd G) trials 0
                                            (Finite 0%Qc) 0)))
       = trials
       ∧ ∃ hits, 0 ≤ hits ≤ trials
                 ∧ x = Finite (Qc_of_Z hits / Qc_of_Z trials)%Qc
                 ∧ in_unit_interval x)
  ∧ (∀ x i, approxGlobal fuel rnd G trials = Done x i →
       Z.of_nat (length (filter (λ c, countedAt G (pickedNode_global rnd G) c = true)
                                (iterations fuel
                                   (approxGlobal_body rnd G (prefixWeights G).1
                                                      (prefixWeights G).2)
                                   trials 0 (Finite 0%Qc) 0)))
       = trials
       ∧ ∃ hits, 0 ≤ hits ≤ trials
                 ∧ x = Finite (Qc_of_Z hits / Qc_of_Z trials)%Qc
                 ∧ in_unit_interval x)
  ∧ (favourable G rnd (pickedNode_avgLocal rnd G) trials →
     (Z.to_nat trials ≤ fuel)%nat →
     ∃ x, approxAvgLocal fuel rnd G trials = Done x (3 * Z.to_nat trials)%nat
          ∧ in_unit_interval x)
  ∧ (favourable G rnd (pickedNode_global rnd G) trials →
     (Z.to_nat trials ≤ fuel)%nat →
     ∃ x, approxGlobal fuel rnd G trials = Done x (3 * Z.to_nat trials)%nat
          ∧ in_unit_interval x).
Proof.
  intros Htrials.
  pose proof (approxAvgLocal_body_exact rnd G) as Havg.
  pose proof (approxGlobal_body_exact rnd G) as Hglobal.
  assert (∀ x i, approxGlobal fuel rnd G trials = Done x i →
            (let* triangles :=
               forTrials fuel (approxGlobal_body rnd G (prefixWeights G).1
                                                 (prefixWeights G).2)
                         trials 0 (Finite 0%Qc) in
             ret (ddiv triangles (of_count trials))) 0%nat = Done x i) as Hunfold.
  { intros x i. unfold approxGlobal. by destruct (prefixWeights G). }
  split; [done|]. split; [done|]. split; [|split; [|split]].
  - intros x i Hrun. by apply (estimate_counted fuel G _ _ trials x i Havg).
  - intros x i Hrun%Hunfold. by apply (estimate_counted fuel G _ _ trials x i Hglobal).
  - intros Hfav Hfuel.
    destruct (estimate_returns fuel (approxAvgLocal_body rnd G) trials) as [x Hx];
      [lia|done| |].
    + intros f m t Hm. by apply (approxAvgLocal_body_clean rnd G trials).
    + exists x. split; [done|].
      by destruct (estimate_counted fuel G _ _ trials x _ Havg Htrials Hx)
        as (_ & hits & _ & _ & ?).
  - intros Hfav Hfuel.
    destruct (estimate_returns fuel
                (approxGlobal_body rnd G (prefixWeights G).1 (prefixWeights G).2) trials)
      as [x Hx]; [lia|done| |].
    + intros f m t Hm. by apply (approxGlobal_body_clean rnd G trials).
    + exists x. split.
      * unfold approxGlobal. by destruct (prefixWeights G).
      * by destruct (estimate_counted fuel G _ _ trials x _ Hglobal Htrials Hx)
          as (_ & hits & _ & _ & ?).
Qed.

(** On the path with the draws 1, 2, 3, ...: the nodes 1 and 2 are drawn
    and discarded, then the node 0 is drawn twice and counted twice. *)
Example iterations_path :
  iterations 10 (approxAvgLocal_body shiftedDraws pathGraph) 2 0 (Finite 0%Qc) 0
  = [0; 1; 2; 5]%nat
  ∧ filter (λ c, countedAt pathGraph (pickedNode_avgLocal shiftedDraws pathGraph) c = true)
           [0; 1; 2; 5]%nat
    = [2; 5]%nat.
Proof. split; by_eval. Qed.

Lemma approx_value_in_unit_interval_witness :
  approxAvgLocal 10 shiftedDraws pathGraph 2 = Done (Finite 0%Qc) 8%nat
  ∧ (Z.of_nat (length (filter (λ c, countedAt pathGraph
                                      (pickedNode_avgLocal shiftedDraws pathGraph) c
                                    = true)
                              (iterations 10 (approxAvgLocal_body shiftedDraws pathGraph)
                                          2 0 (Finite 0%Qc) 0)))
     = 2
     ∧ ∃ hits, 0 ≤ hits ≤ 2
               ∧ Finite 0%Qc = Finite (Qc_of_Z hits / Qc_of_Z 2)%Qc
               ∧ in_unit_interval (Finite 0%Qc))
  ∧ (∃ x, approxGlobal 2 countingDraws triangleGraph 2 = Done x (3 * Z.to_nat 2)%nat
          ∧ in_unit_interval x).
Proof.
  assert (approxAvgLocal 10 shiftedDraws pathGraph 2 = Done (Finite 0%Qc) 8%nat) as Hrun
    by by_eval.
  assert (0 < 2 < 2 ^ 64) as Htrials by lia.
  split; [exact Hrun|]. split.
  - exact (proj1 (proj2 (proj2
             (approx_value_in_unit_interval 10 shiftedDraws pathGraph 2 Htrials)))
             (Finite 0%Qc) 8%nat Hrun).
  - apply (proj2 (proj2 (proj2 (proj2 (proj2
             (approx_value_in_unit_interval 2 countingDraws triangleGraph 2 Htrials)))))).
    + intros n Hn. assert (n = 0 ∨ n = 1)%nat as [-> | ->] by lia.
      * exists 0, 2, 1. repeat split; by_eval.
      * exists 1, 0, 2. repeat split; by_eval.
    + vm_compute. lia.
Defined.
